(** * SPHinXsys: resolution policies and neighbour relations

    A shallow embedding of [adaptation.h], [adaptation.cpp] and
    [base_body_relation.cpp].

    Conventions of the embedding:
    - [Real] (a C++ [double]) is read as a mathematical real number, so the
      statements below are about the formulas the code evaluates and not
      about rounding;  [int] and [size_t] are read as [Z] and [nat];
    - this reading is kept for what varies continuously with the operands.
      Where a result jumps with the rounding of one operation it is not:
      the lattice sum of [computeReferenceNumberDensity], which tests
      [distance < cutoff_radius] on rounded values, is embedded a second
      time over an arithmetic that is left open (module [Rounded]), and the
      levels reported by a split/merge policy are stated for the refinement
      levels at which the logarithm is not an integer;
    - a division by zero gives an infinity or a NaN in C++, and converting
      one of these, or a value beyond the range of [int], to [int] has no
      defined behaviour: what is stated about the lattice sum is stated
      for a spacing other than zero and a quotient
      [cutoff_radius / particle_spacing] within the range of [int]
      ([search_depth_in_range]; in [Rounded], a search depth that is
      defined);
    - a member function takes the object as an explicit argument and
      returns the updated object;
    - a virtual call is resolved through the dynamic type of the object,
      which is passed along as a [DynamicType] tag;
    - an access outside the bounds of a [std::vector] has no defined
      behaviour in C++: the embedding returns [None] there. *)

From Stdlib Require Import Reals Lra Lia ZArith List Bool.
From Stdlib Require Floats.
From stdpp Require Import base option list.

(** ** Scalars, small vectors and loops *)

Module DataType.
Local Open Scope R_scope.

(** [Real] is the scalar type of the library. *)
Abbreviation Real := R (only parsing).

(** The two vector types of the library; [Vecd] is one or the other
    depending on the build. *)
Inductive Vecd : Type :=
| Vec2d (x y : Real)
| Vec3d (x y z : Real).

Inductive Build : Type := for_2D_build | for_3D_build.

Definition Dimensions (b : Build) : Z :=
  match b with for_2D_build => 2 | for_3D_build => 3 end.

(** [Vecd(0)]: the zero vector of the build. *)
Definition Vecd_zero (b : Build) : Vecd :=
  match b with
  | for_2D_build => Vec2d 0 0
  | for_3D_build => Vec3d 0 0 0
  end.

Definition norm (v : Vecd) : Real :=
  match v with
  | Vec2d x y => sqrt (x * x + y * y)
  | Vec3d x y z => sqrt (x * x + y * y + z * z)
  end.

(** Modelled from the spec: [powerN] is declared in a header that is not
    part of the sources; the spec writes [2^localRefinementLevel] and
    [spacingMin^Dimensions] where the code calls [powerN(2.0, level)] and
    [powerN(spacing_min_, Dimensions)].  Exponents are non-negative in
    every use; a negative one is read as [0]. *)
Definition powerN (a : Real) (n : Z) : Real := a ^ Z.to_nat n.

(** [pow(x, y)] of <cmath> for a positive base. *)
Definition pow (x y : Real) : Real := Rpower x y.

(** The conversion [int(x)]: truncation towards zero.  C++ defines it
    only where the truncated value is an [int]; the statements that
    depend on it bound its argument. *)
Definition int_cast (x : Real) : Z :=
  if Rle_dec 0 x then Int_part x else (- Int_part (- x)%R)%Z.

Definition Rltb (x y : Real) : bool := if Rlt_dec x y then true else false.

(** The values taken by [i] in [for (int i = first; i <= last; ++i)]. *)
Definition int_range (first last : Z) : list Z :=
  List.map (fun k => (first + Z.of_nat k)%Z)
           (List.seq 0 (Z.to_nat (last - first + 1))).

(** [for (int i = first; i <= last; ++i) acc = body i acc]. *)
Definition for_int {A : Type} (first last : Z) (body : Z -> A -> A) (acc : A) : A :=
  List.fold_left (fun a i => body i a) (int_range first last) acc.

Definition log10 (x : Real) : Real := ln x / ln 10.

(** The conversions between [int] (32 bits, signed) and [size_t] (64 bits,
    unsigned), on the values: both wrap around. *)
Definition size_t_of_int (n : Z) : Z := (n mod 2 ^ 64)%Z.
Definition int_of_size_t (n : Z) : Z := ((n + 2 ^ 31) mod 2 ^ 32 - 2 ^ 31)%Z.

End DataType.

(** ** The kernel interface

    [all_kernels.h] is not part of the sources.  A kernel is known here
    only through the member functions the adaptation calls. *)

Module Kernels.
Import DataType.
Local Open Scope R_scope.

Record Kernel : Type := {
  CutOffRadius : Real;
  KernelSize : Real;
  W : Real -> Vecd -> Real;
  W_1D : Real -> Real
}.

End Kernels.

(** ** Bodies, as far as the adaptation and the relations read them *)

Module Bodies.
Import DataType.

Record SPHSystem : Type := { resolution_ref_ : Real }.

Record BaseParticles : Type := {
  total_real_particles_ : nat;
  real_particles_bound_ : nat
}.

(** [is_RealBody] tells whether the dynamic type of the body derives from
    [RealBody]. *)
Record SPHBody : Type := {
  body_name : nat;
  is_RealBody : bool;
  getSPHSystem : SPHSystem;
  getBaseParticles : BaseParticles
}.

End Bodies.

(** ** adaptation.h / adaptation.cpp *)

Module Adaptation.
Import DataType Kernels Bodies.
Local Open Scope R_scope.

Record SPHAdaptation : Type := {
  h_spacing_ratio_ : Real;
  system_refinement_ratio_ : Real;
  local_refinement_level_ : Z;
  spacing_ref_ : Real;
  h_ref_ : Real;
  kernel_ptr_ : Kernel;
  sigma0_ref_ : Real;
  spacing_min_ : Real;
  h_ratio_max_ : Real
}.

Record ParticleWithLocalRefinement : Type := {
  as_SPHAdaptation :> SPHAdaptation;
  h_ratio_ : list Real
}.

Record ParticleSplitAndMerge : Type := {
  as_ParticleWithLocalRefinement :> ParticleWithLocalRefinement;
  minimum_volume_ : Real;
  maximum_volume_ : Real
}.

(** The class an object was created as; [MostRefinedSpacing] is the one
    virtual function whose overrider matters below. *)
Inductive DynamicType : Type :=
| IsSPHAdaptation
| IsParticleWithLocalRefinement
| IsParticleRefinementByShape
| IsParticleSplitAndMerge.

Section WithBuild.

Variable build : Build.
Variable KernelWendlandC2 : Real -> Kernel.
Variable Eps : Real.

Definition SPHAdaptation_MostRefinedSpacing
    (coarse_particle_spacing : Real) (refinement_level : Z) : Real :=
  coarse_particle_spacing / powerN 2 refinement_level.

Definition ParticleSplitAndMerge_MostRefinedSpacing
    (coarse_particle_spacing : Real) (local_refinement_level : Z) : Real :=
  let minimum_spacing_particles := powerN 2 local_refinement_level in
  let spacing_ratio := pow minimum_spacing_particles (1 / IZR (Dimensions build)) in
  coarse_particle_spacing / spacing_ratio.

Definition MostRefinedSpacing (dyn : DynamicType) : Real -> Z -> Real :=
  match dyn with
  | IsParticleSplitAndMerge => ParticleSplitAndMerge_MostRefinedSpacing
  | _ => SPHAdaptation_MostRefinedSpacing
  end.

(** The quotient [cutoff_radius / particle_spacing] is a number whose
    conversion to [int] is defined and leaves room for the [+ 1] of the
    search depth and for the last increment of the loop counters. *)
Definition search_depth_in_range (cutoff_radius particle_spacing : Real) : Prop :=
  particle_spacing <> 0 /\
  - 2 ^ 31 - 1 < cutoff_radius / particle_spacing < 2 ^ 31 - 2.

(** The two overloads of [computeReferenceNumberDensity]; the argument
    only selects the overload.  They read [kernel_ptr_] and, through
    [ReferenceSpacing()], [spacing_ref_].  This is the reading in exact
    arithmetic, meant for [search_depth_in_range]; which lattice points
    pass [distance < cutoff_radius] when they lie on the sphere of the
    cut-off radius is decided by rounding, for which see
    [Rounded.computeReferenceNumberDensity]. *)
Definition computeReferenceNumberDensity
    (kernel_ptr : Kernel) (spacing_ref : Real) (zero : Vecd) : Real :=
  let cutoff_radius := CutOffRadius kernel_ptr in
  let particle_spacing := spacing_ref in
  let search_depth := (int_cast (cutoff_radius / particle_spacing)%R + 1)%Z in
  match zero with
  | Vec2d _ _ =>
    for_int (- search_depth) search_depth (fun j sigma =>
      for_int (- search_depth) search_depth (fun i sigma =>
        let particle_location :=
          Vec2d (IZR i * particle_spacing) (IZR j * particle_spacing) in
        let distance := norm particle_location in
        if Rlt_dec distance cutoff_radius
        then sigma + W kernel_ptr distance particle_location
        else sigma) sigma) 0
  | Vec3d _ _ _ =>
    for_int (- search_depth) search_depth (fun k sigma =>
      for_int (- search_depth) search_depth (fun j sigma =>
        for_int (- search_depth) search_depth (fun i sigma =>
          let particle_location :=
            Vec3d (IZR i * particle_spacing) (IZR j * particle_spacing)
                  (IZR k * particle_spacing) in
          let distance := norm particle_location in
          if Rlt_dec distance cutoff_radius
          then sigma + W kernel_ptr distance particle_location
          else sigma) sigma) sigma) 0
  end.

(** [SPHAdaptation::SPHAdaptation(Real, Real, Real)]: the members are
    initialised in their order of declaration.  Inside a constructor of
    [SPHAdaptation] the virtual call reaches the base overrider. *)
Definition SPHAdaptation_new
    (resolution_ref h_spacing_ratio system_refinement_ratio : Real) : SPHAdaptation :=
  let local_refinement_level := 0%Z in
  let spacing_ref := resolution_ref / system_refinement_ratio in
  let h_ref := h_spacing_ratio * spacing_ref in
  let kernel := KernelWendlandC2 h_ref in
  {| h_spacing_ratio_ := h_spacing_ratio;
     system_refinement_ratio_ := system_refinement_ratio;
     local_refinement_level_ := local_refinement_level;
     spacing_ref_ := spacing_ref;
     h_ref_ := h_ref;
     kernel_ptr_ := kernel;
     sigma0_ref_ := computeReferenceNumberDensity kernel spacing_ref (Vecd_zero build);
     spacing_min_ := SPHAdaptation_MostRefinedSpacing spacing_ref local_refinement_level;
     h_ratio_max_ := powerN 2 local_refinement_level |}.

(** [SPHAdaptation::SPHAdaptation(SPHBody &, Real, Real)]. *)
Definition SPHAdaptation_of_body
    (sph_body : SPHBody) (h_spacing_ratio system_refinement_ratio : Real) : SPHAdaptation :=
  SPHAdaptation_new (resolution_ref_ (getSPHSystem sph_body))
                    h_spacing_ratio system_refinement_ratio.

Definition MinimumSmoothingLength (this : SPHAdaptation) : Real :=
  h_ref_ this / h_ratio_max_ this.

(** [SPHAdaptation::resetAdaptationRatios]; [dyn] resolves the call of
    [MostRefinedSpacing]. *)
Definition resetAdaptationRatios (dyn : DynamicType) (this : SPHAdaptation)
    (h_spacing_ratio new_system_refinement_ratio : Real) : SPHAdaptation :=
  let spacing_ref :=
    spacing_ref_ this * system_refinement_ratio_ this / new_system_refinement_ratio in
  let h_ref := h_spacing_ratio * spacing_ref in
  let kernel := KernelWendlandC2 h_ref in
  let sigma0_ref := computeReferenceNumberDensity kernel spacing_ref (Vecd_zero build) in
  let spacing_min := MostRefinedSpacing dyn spacing_ref (local_refinement_level_ this) in
  {| h_spacing_ratio_ := h_spacing_ratio;
     system_refinement_ratio_ := new_system_refinement_ratio;
     local_refinement_level_ := local_refinement_level_ this;
     spacing_ref_ := spacing_ref;
     h_ref_ := h_ref;
     kernel_ptr_ := kernel;
     sigma0_ref_ := sigma0_ref;
     spacing_min_ := spacing_min;
     h_ratio_max_ := h_ref * spacing_ref / spacing_min |}.

(** [ParticleWithLocalRefinement::ParticleWithLocalRefinement]: the base
    constructor runs first, then the body overwrites three members.  The
    class does not override [MostRefinedSpacing]. *)
Definition ParticleWithLocalRefinement_new (sph_body : SPHBody)
    (h_spacing_ratio system_refinement_ratio : Real) (local_refinement_level : Z)
    : ParticleWithLocalRefinement :=
  let base := SPHAdaptation_of_body sph_body h_spacing_ratio system_refinement_ratio in
  {| as_SPHAdaptation :=
       {| h_spacing_ratio_ := h_spacing_ratio_ base;
          system_refinement_ratio_ := system_refinement_ratio_ base;
          local_refinement_level_ := local_refinement_level;
          spacing_ref_ := spacing_ref_ base;
          h_ref_ := h_ref_ base;
          kernel_ptr_ := kernel_ptr_ base;
          sigma0_ref_ := sigma0_ref_ base;
          spacing_min_ :=
            MostRefinedSpacing IsParticleWithLocalRefinement
                               (spacing_ref_ base) local_refinement_level;
          h_ratio_max_ := powerN 2 local_refinement_level |};
     h_ratio_ := [] |}.

(** [ParticleSplitAndMerge::ParticleSplitAndMerge]: in its body the
    virtual call reaches the overrider of the class itself. *)
Definition ParticleSplitAndMerge_new (sph_body : SPHBody)
    (h_spacing_ratio system_resolution_ratio : Real) (local_refinement_level : Z)
    : ParticleSplitAndMerge :=
  let base := ParticleWithLocalRefinement_new sph_body h_spacing_ratio
                system_resolution_ratio local_refinement_level in
  let spacing_min :=
    MostRefinedSpacing IsParticleSplitAndMerge
                       (spacing_ref_ base) (local_refinement_level_ base) in
  let h_ratio_max := spacing_ref_ base / spacing_min in
  {| as_ParticleWithLocalRefinement :=
       {| as_SPHAdaptation :=
            {| h_spacing_ratio_ := h_spacing_ratio_ base;
               system_refinement_ratio_ := system_refinement_ratio_ base;
               local_refinement_level_ := local_refinement_level_ base;
               spacing_ref_ := spacing_ref_ base;
               h_ref_ := h_ref_ base;
               kernel_ptr_ := kernel_ptr_ base;
               sigma0_ref_ := sigma0_ref_ base;
               spacing_min_ := spacing_min;
               h_ratio_max_ := h_ratio_max |};
          h_ratio_ := h_ratio_ base |};
     minimum_volume_ := powerN spacing_min (Dimensions build);
     maximum_volume_ := powerN (spacing_ref_ base) (Dimensions build) |}.

Definition isSplitAllowed (this : ParticleSplitAndMerge) (current_volume : Real) : bool :=
  if Rgt_dec (current_volume - 2 * minimum_volume_ this) (- Eps) then true else false.

Definition mergeResolutionCheck (this : ParticleSplitAndMerge) (volume : Real) : bool :=
  if Rlt_dec (volume - 12 / 10 * powerN (spacing_min_ this) (Dimensions build)) Eps
  then true else false.

(** [ParticleSplitAndMerge::resetAdaptationRatios]: the inherited reset
    on the base sub-object, then the two volumes. *)
Definition ParticleSplitAndMerge_resetAdaptationRatios (this : ParticleSplitAndMerge)
    (h_spacing_ratio new_system_refinement_ratio : Real) : ParticleSplitAndMerge :=
  let base := resetAdaptationRatios IsParticleSplitAndMerge this
                h_spacing_ratio new_system_refinement_ratio in
  {| as_ParticleWithLocalRefinement :=
       {| as_SPHAdaptation := base; h_ratio_ := h_ratio_ this |};
     minimum_volume_ := powerN (spacing_min_ base) (Dimensions build);
     maximum_volume_ := powerN (spacing_ref_ base) (Dimensions build) |}.

(** [ParticleRefinementByShape::smoothedSpacing]. *)
Definition smoothedSpacing (this : SPHAdaptation)
    (measure transition_thickness : Real) : Real :=
  let ratio_ref := measure / (2 * transition_thickness) in
  if Rlt_dec ratio_ref (KernelSize (kernel_ptr_ this))
  then
    let weight := W_1D (kernel_ptr_ this) ratio_ref / W_1D (kernel_ptr_ this) 0 in
    weight * spacing_min_ this + (1 - weight) * spacing_ref_ this
  else spacing_ref_ this.



(** The split/merge policies a program can hold: a constructed one, or one
    obtained from such by [resetAdaptationRatios]. *)
Inductive constructed : ParticleSplitAndMerge -> Prop :=
| constructed_new sph_body h_spacing_ratio system_resolution_ratio local_refinement_level :
    constructed (ParticleSplitAndMerge_new sph_body h_spacing_ratio
                   system_resolution_ratio local_refinement_level)
| constructed_reset this h_spacing_ratio new_system_refinement_ratio :
    constructed this ->
    constructed (ParticleSplitAndMerge_resetAdaptationRatios this
                   h_spacing_ratio new_system_refinement_ratio).

End WithBuild.

(** *** The remaining member functions *)

(** A shape, as far as the adaptation reads it. *)
Record Shape : Type := { findSignedDistance : Vecd -> Real }.

Record ParticleRefinementByShape : Type := {
  as_LocalRefinement :> ParticleWithLocalRefinement;
  target_shape_ : Shape
}.

Section MemberFunctions.

Variable build : Build.

(** [SPHAdaptation::ReferenceNumberDensity]. *)
Definition ReferenceNumberDensity (this : SPHAdaptation) (smoothing_length_ratio : Real)
    : Real :=
  sigma0_ref_ this * powerN smoothing_length_ratio (Dimensions build).





(** [SPHAdaptation::createLevelSet] up to the construction of the level
    sets: [total_levels] (a [size_t]) and [coarsest_spacing], from the value
    [MinimumDimension(shape.getBounds())]. *)
Definition createLevelSet_total_levels (this : SPHAdaptation) (minimum_dimension : Real)
    : Z :=
  size_t_of_int (int_cast (log10 (minimum_dimension / spacing_ref_ this)%R) + 2)%Z.

Definition createLevelSet_coarsest_spacing (this : SPHAdaptation)
    (minimum_dimension : Real) : Real :=
  let total_levels := createLevelSet_total_levels this minimum_dimension in
  spacing_ref_ this * powerN 2 (int_of_size_t ((total_levels - 1) mod 2 ^ 64)%Z).

(** [ParticleRefinementNearSurface::getLocalSpacingByShape]. *)
Definition ParticleRefinementNearSurface_getLocalSpacingByShape
    (this : ParticleRefinementByShape) (position : Vecd) : Real :=
  let phi := Rabs (findSignedDistance (target_shape_ this) position) in
  smoothedSpacing this phi (spacing_ref_ this).

(** [ParticleRefinementWithinShape::getLocalSpacingByShape]. *)
Definition ParticleRefinementWithinShape_getLocalSpacingByShape
    (this : ParticleRefinementByShape) (position : Vecd) : Real :=
  let phi := findSignedDistance (target_shape_ this) position in
  if Rlt_dec phi 0 then spacing_min_ this
  else smoothedSpacing this phi (spacing_ref_ this).

(** The two overloads of [ParticleSplitAndMerge::splittingPattern]. *)
Definition splittingPattern (pos : Vecd) (particle_spacing delta : Real) : Vecd :=
  match pos with
  | Vec2d x y =>
    Vec2d (x + 5 / 10 * particle_spacing * cos delta)
          (y + 5 / 10 * particle_spacing * sin delta)
  | Vec3d x y z =>
    Vec3d (x + 5 / 10 * particle_spacing * cos delta)
          (y + 5 / 10 * particle_spacing * sin delta)
          z
  end.

End MemberFunctions.

Section ShapePolicies.

Variable build : Build.
Variable KernelWendlandC2 : Real -> Kernel.

(** The constructor template of [ParticleRefinementByShape] that takes the
    target shape: the base constructor, then the reference to the shape. *)
Definition ParticleRefinementByShape_new (sph_body : SPHBody) (target_shape : Shape)
    (h_spacing_ratio system_refinement_ratio : Real) (local_refinement_level : Z)
    : ParticleRefinementByShape :=
  {| as_LocalRefinement :=
       ParticleWithLocalRefinement_new build KernelWendlandC2 sph_body
         h_spacing_ratio system_refinement_ratio local_refinement_level;
     target_shape_ := target_shape |}.

End ShapePolicies.

(** The one-dimensional profile stays between zero and its value at the
    centre. *)
Definition bounded_profile (K : Kernel) : Prop :=
  0 < W_1D K 0 /\
  forall q, 0 <= q < KernelSize K -> 0 <= W_1D K q <= W_1D K 0.

(** *** What the adaptation expects of a kernel *)

(** A kernel with a proper support: weights are non-negative inside the
    cut-off radius and positive at the centre. *)
Definition positive_kernel (K : Kernel) : Prop :=
  0 < CutOffRadius K /\
  (forall d v, 0 <= d < CutOffRadius K -> 0 <= W K d v) /\
  (forall v, norm v = 0 -> 0 < W K 0 v).

(** The one-dimensional profile falls off to zero at the kernel size. *)
Definition falloff_kernel (K : Kernel) : Prop :=
  0 < KernelSize K /\
  W_1D K 0 <> 0 /\
  W_1D K (KernelSize K) = 0 /\
  continuity_pt (W_1D K) (KernelSize K).

(** *** The lattice sum, in the words of the spec *)

Definition Rsum (l : list Real) : Real := List.fold_right Rplus 0 l.

(** The offsets [(i*s, j*s)] or [(i*s, j*s, k*s)] with every index between
    [-depth] and [depth]. *)
Definition lattice_offsets (zero : Vecd) (depth : Z) (s : Real) : list Vecd :=
  match zero with
  | Vec2d _ _ =>
    List.flat_map (fun j =>
      List.map (fun i => Vec2d (IZR i * s) (IZR j * s)) (int_range (- depth) depth))
      (int_range (- depth) depth)
  | Vec3d _ _ _ =>
    List.flat_map (fun k =>
      List.flat_map (fun j =>
        List.map (fun i => Vec3d (IZR i * s) (IZR j * s) (IZR k * s))
                 (int_range (- depth) depth))
        (int_range (- depth) depth))
      (int_range (- depth) depth)
  end.

(** The weights [W(|offset|, offset)] of the offsets strictly inside the
    cut-off radius. *)
Definition inside_weights (K : Kernel) (offsets : list Vecd) : list Real :=
  List.map (fun v => W K (norm v) v)
    (List.filter (fun v => Rltb (norm v) (CutOffRadius K)) offsets).

(** The sum of these weights over the lattice whose indices range over
    [cutoff/spacing + 1] cells on either side. *)
Definition lattice_sum (K : Kernel) (s : Real) (zero : Vecd) : Real :=
  let depth := (int_cast (CutOffRadius K / s)%R + 1)%Z in
  Rsum (inside_weights K (lattice_offsets zero depth s)).

(** *** A kernel to instantiate the statements with *)

Definition wendland_W_1D (q : Real) : Real := (1 - q / 2) ^ 4 * (1 + 2 * q).

(** A Wendland kernel of smoothing length [h]: kernel size 2, cut-off
    radius [2 h], normalised per dimension. *)
Definition wendland_kernel (h : Real) : Kernel :=
  {| CutOffRadius := 2 * h;
     KernelSize := 2;
     W := fun r_ij displacement =>
            match displacement with
            | Vec2d _ _ => 7 / (4 * PI) / (h * h) * wendland_W_1D (r_ij / h)
            | Vec3d _ _ _ => 21 / (16 * PI) / (h * h * h) * wendland_W_1D (r_ij / h)
            end;
     W_1D := wendland_W_1D |}.

(** The ball of radius 1 around the origin, as a shape. *)
Definition unit_ball : Shape := {| findSignedDistance := fun v => norm v - 1 |}.

Definition sample_body (resolution_ref : Real) : SPHBody :=
  {| body_name := 0;
     is_RealBody := true;
     getSPHSystem := {| resolution_ref_ := resolution_ref |};
     getBaseParticles := {| total_real_particles_ := 0; real_particles_bound_ := 0 |} |}.

End Adaptation.

(** ** The lattice sum in the arithmetic of [double]

    [computeReferenceNumberDensity] once more, as the machine runs it: the
    type of the doubles and the operations the function uses are the fields
    of an [Arithmetic], of which nothing is assumed, so that what is proved
    of the function holds whatever each operation rounds to.  [binary64]
    below is the arithmetic of IEEE 754 doubles, [exact] that of the real
    numbers, at which the function is the one of module [Adaptation]. *)

Module Rounded.
Import DataType.

Inductive Vecd (T : Type) : Type :=
| Vec2d (x y : T)
| Vec3d (x y z : T).

Arguments Vec2d {T} x y.
Arguments Vec3d {T} x y z.

(** [int_of_Real] is the conversion [int(x)]: [None] where C++ leaves it
    undefined (an infinity, a NaN, a value beyond the range of [int]).
    [norm] is [Eigen]'s, which is not part of the sources. *)
Record Arithmetic : Type := {
  double : Type;
  Real_of_int : Z -> double;
  int_of_Real : double -> option Z;
  plus : double -> double -> double;
  times : double -> double -> double;
  divide : double -> double -> double;
  less : double -> double -> bool;
  norm : Vecd double -> double
}.

(** A kernel, as far as [computeReferenceNumberDensity] reads it. *)
Record Kernel (A : Arithmetic) : Type := {
  CutOffRadius : double A;
  W : double A -> Vecd (double A) -> double A
}.

Arguments CutOffRadius {A} k.
Arguments W {A} k r_ij displacement.

Definition INT_MAX : Z := 2 ^ 31 - 1.

Section WithArithmetic.

Variable A : Arithmetic.
Variable kernel_ptr : Kernel A.

(** [int search_depth = int(cutoff_radius / particle_spacing) + 1], for the
    loops [for (int j = -search_depth; j <= search_depth; ++j)]: the
    conversion has to be defined, and the counters, which leave a loop at
    [search_depth + 1], have to stay within [INT_MAX]. *)
Definition search_depth (cutoff_radius particle_spacing : double A) : option Z :=
  match int_of_Real A (divide A cutoff_radius particle_spacing) with
  | Some n => if decide (n + 1 < INT_MAX)%Z then Some (n + 1)%Z else None
  | None => None
  end.

(** The two overloads; [None] where the search depth is not defined.
    [Real sigma(0)] is the conversion of the [int] zero. *)
Definition computeReferenceNumberDensity
    (spacing_ref : double A) (zero : Vecd (double A)) : option (double A) :=
  let cutoff_radius := CutOffRadius kernel_ptr in
  let particle_spacing := spacing_ref in
  match search_depth cutoff_radius particle_spacing with
  | None => None
  | Some search_depth =>
    Some
      match zero with
      | Vec2d _ _ =>
        for_int (- search_depth) search_depth (fun j sigma =>
          for_int (- search_depth) search_depth (fun i sigma =>
            let particle_location :=
              Vec2d (times A (Real_of_int A i) particle_spacing)
                    (times A (Real_of_int A j) particle_spacing) in
            let distance := norm A particle_location in
            if less A distance cutoff_radius
            then plus A sigma (W kernel_ptr distance particle_location)
            else sigma) sigma) (Real_of_int A 0)
      | Vec3d _ _ _ =>
        for_int (- search_depth) search_depth (fun k sigma =>
          for_int (- search_depth) search_depth (fun j sigma =>
            for_int (- search_depth) search_depth (fun i sigma =>
              let particle_location :=
                Vec3d (times A (Real_of_int A i) particle_spacing)
                      (times A (Real_of_int A j) particle_spacing)
                      (times A (Real_of_int A k) particle_spacing) in
              let distance := norm A particle_location in
              if less A distance cutoff_radius
              then plus A sigma (W kernel_ptr distance particle_location)
              else sigma) sigma) sigma) (Real_of_int A 0)
      end
  end.

(** *** The lattice sum, in the words of the spec *)

(** The offsets [(i*s, j*s)] or [(i*s, j*s, k*s)] with every index between
    [-depth] and [depth]; the first index runs fastest. *)
Definition lattice_offsets (zero : Vecd (double A)) (depth : Z) (s : double A)
    : list (Vecd (double A)) :=
  match zero with
  | Vec2d _ _ =>
    List.flat_map (fun j =>
      List.map (fun i => Vec2d (times A (Real_of_int A i) s)
                               (times A (Real_of_int A j) s))
               (int_range (- depth) depth))
      (int_range (- depth) depth)
  | Vec3d _ _ _ =>
    List.flat_map (fun k =>
      List.flat_map (fun j =>
        List.map (fun i => Vec3d (times A (Real_of_int A i) s)
                                 (times A (Real_of_int A j) s)
                                 (times A (Real_of_int A k) s))
                 (int_range (- depth) depth))
        (int_range (- depth) depth))
      (int_range (- depth) depth)
  end.

(** The weights [W(|offset|, offset)] of the offsets whose norm is found
    strictly below the cut-off radius, in the order of the offsets. *)
Definition inside_weights (offsets : list (Vecd (double A))) : list (double A) :=
  List.map (fun v => W kernel_ptr (norm A v) v)
    (List.filter (fun v => less A (norm A v) (CutOffRadius kernel_ptr)) offsets).

(** The weights added one after the other, starting from zero. *)
Definition sum_in_order (weights : list (double A)) : double A :=
  List.fold_left (plus A) weights (Real_of_int A 0).

End WithArithmetic.

(** *** The arithmetic of the real numbers *)

Definition to_Vecd (v : Vecd R) : DataType.Vecd :=
  match v with
  | Vec2d x y => DataType.Vec2d x y
  | Vec3d x y z => DataType.Vec3d x y z
  end.

(** A real number converts to an [int] when its truncation is one. *)
Definition exact_int_of_Real (x : R) : option Z :=
  if Rlt_dec (- 2 ^ 31 - 1) x
  then if Rlt_dec x (2 ^ 31) then Some (int_cast x) else None
  else None.

Definition exact : Arithmetic :=
  {| double := R;
     Real_of_int := IZR;
     int_of_Real := exact_int_of_Real;
     plus := Rplus;
     times := Rmult;
     divide := Rdiv;
     less := Rltb;
     norm := fun v => DataType.norm (to_Vecd v) |}.

Definition exact_kernel (K : Kernels.Kernel) : Kernel exact :=
  Build_Kernel exact (Kernels.CutOffRadius K)
    (fun r_ij displacement => Kernels.W K r_ij (to_Vecd displacement)).

(** *** The arithmetic of IEEE 754 doubles *)

(** [Real(i)] for an [int]: exact, an [int] has fewer bits than the
    mantissa. *)
Definition binary64_of_int (i : Z) : PrimFloat.float :=
  if (i <? 0)%Z
  then PrimFloat.opp (PrimFloat.of_uint63 (Uint63.of_Z (- i)))
  else PrimFloat.of_uint63 (Uint63.of_Z i).

(** [int(x)]: the mantissa shifted by the exponent, towards zero. *)
Definition binary64_to_int (x : PrimFloat.float) : option Z :=
  match FloatOps.Prim2SF x with
  | SpecFloat.S754_zero _ => Some 0%Z
  | SpecFloat.S754_finite negative m e =>
    let magnitude :=
      if (0 <=? e)%Z then (Z.pos m * 2 ^ e)%Z else (Z.pos m / 2 ^ (- e))%Z in
    let n := if negative then (- magnitude)%Z else magnitude in
    if decide (- 2 ^ 31 <= n <= INT_MAX)%Z then Some n else None
  | _ => None
  end.

(** The norm as the square root of the sum of the squares, added from the
    first component on. *)
Definition binary64_norm (v : Vecd PrimFloat.float) : PrimFloat.float :=
  match v with
  | Vec2d x y =>
    PrimFloat.sqrt (PrimFloat.add (PrimFloat.mul x x) (PrimFloat.mul y y))
  | Vec3d x y z =>
    PrimFloat.sqrt
      (PrimFloat.add (PrimFloat.add (PrimFloat.mul x x) (PrimFloat.mul y y))
                     (PrimFloat.mul z z))
  end.

Definition binary64 : Arithmetic :=
  {| double := PrimFloat.float;
     Real_of_int := binary64_of_int;
     int_of_Real := binary64_to_int;
     plus := PrimFloat.add;
     times := PrimFloat.mul;
     divide := PrimFloat.div;
     less := PrimFloat.ltb;
     norm := binary64_norm |}.

(** The double nearest to [a / b]. *)
Definition binary64_ratio (a b : Z) : PrimFloat.float :=
  PrimFloat.div (binary64_of_int a) (binary64_of_int b).

(** A Wendland kernel of smoothing length [h] in doubles, to instantiate
    the statements with: cut-off radius [2 h]. *)
Definition binary64_wendland_kernel (h : PrimFloat.float) : Kernel binary64 :=
  let one := binary64_of_int 1 in
  let two := binary64_of_int 2 in
  let pi := binary64_ratio 3141592653589793 1000000000000000 in
  let W_1D q :=
    let u := PrimFloat.sub one (PrimFloat.div q two) in
    let u2 := PrimFloat.mul u u in
    PrimFloat.mul (PrimFloat.mul u2 u2) (PrimFloat.add one (PrimFloat.mul two q)) in
  Build_Kernel binary64 (PrimFloat.mul two h)
    (fun r_ij displacement =>
       let q := PrimFloat.div r_ij h in
       match displacement with
       | Vec2d _ _ =>
         PrimFloat.mul
           (PrimFloat.div
              (PrimFloat.div (binary64_of_int 7) (PrimFloat.mul (binary64_of_int 4) pi))
              (PrimFloat.mul h h))
           (W_1D q)
       | Vec3d _ _ _ =>
         PrimFloat.mul
           (PrimFloat.div
              (PrimFloat.div (binary64_of_int 21) (PrimFloat.mul (binary64_of_int 16) pi))
              (PrimFloat.mul (PrimFloat.mul h h) h))
           (W_1D q)
       end).

End Rounded.

(** ** base_body_relation.cpp *)

Module BodyRelation.
Import DataType Bodies.

(** Modelled from the spec: [neighborhood.h] is not part of the sources.
    Per the data model a neighbour record holds a neighbour index, a
    separation distance, a kernel weight and a weighted gradient
    direction; a Neighborhood holds such records with a [currentSize]
    counter distinct from the allocated capacity, and a fresh one is
    empty. *)
Record NeighborRecord : Type := {
  j_ : nat;
  r_ij_ : Real;
  W_ij_ : Real;
  dW_ijV_j_e_ij_ : Vecd
}.

Record Neighborhood : Type := {
  current_size_ : nat;
  allocated_size_ : nat;
  records_ : list NeighborRecord
}.

Definition Neighborhood_new : Neighborhood :=
  {| current_size_ := 0; allocated_size_ := 0; records_ := [] |}.

Abbreviation ParticleConfiguration := (list Neighborhood) (only parsing).

(** A relation refers to the particles of its body ([base_particles_] is a
    reference): the member functions below take the current state of that
    store as an argument. *)
Record BaseInnerRelation : Type := {
  inner_configuration_ : ParticleConfiguration
}.

(** A [RealBody *]. *)
Inductive RealBodyPtr : Type :=
| nullptr
| pointer_to (body : SPHBody).

Record BaseContactRelation : Type := {
  contact_bodies_ : list RealBodyPtr;
  contact_configuration_ : list ParticleConfiguration
}.

Record BodyPart : Type := {
  body_part_name : nat;
  getSPHBody : SPHBody
}.

Record blocked_range : Type := { r_begin : nat; r_end : nat }.

(** [for (size_t num = first; num != last; ++num) body(num)], for
    [first <= last]; the body may fail. *)
Fixpoint for_each {S : Type} (body : nat -> S -> option S) (nums : list nat) (s : S)
    : option S :=
  match nums with
  | [] => Some s
  | num :: rest =>
    match body num s with
    | Some s' => for_each body rest s'
    | None => None
    end
  end.

Definition for_size_t {S : Type} (first last : nat) (body : nat -> S -> option S) (s : S)
    : option S :=
  for_each body (seq first (last - first)) s.

(** Running a function over the blocks a partitioner cuts a range into.
    The blocks are run one after the other here; the bodies below write
    only the entries of their own block. *)
Fixpoint for_each_block {S : Type} (f : blocked_range -> S -> option S)
    (blocks : list blocked_range) (s : S) : option S :=
  match blocks with
  | [] => Some s
  | r :: rest =>
    match f r s with
    | Some s' => for_each_block f rest s'
    | None => None
    end
  end.

Definition partitioner : Type := blocked_range -> list blocked_range.

Definition parallel_for {S : Type} (range : blocked_range)
    (f : blocked_range -> S -> option S) (ap : partitioner) (s : S) : option S :=
  for_each_block f (ap range) s.

(** The blocks of [ap range] are well formed and cover the indices of
    [range], no others. *)
Definition partitions (ap : partitioner) : Prop :=
  forall range,
    r_begin range <= r_end range ->
    Forall (fun r => r_begin r <= r_end r) (ap range) /\
    forall i, (exists r, r ∈ ap range /\ r_begin r <= i < r_end r)
              <-> r_begin range <= i < r_end range.

(** [n.current_size_ = value]. *)
Definition with_current_size (value : nat) (n : Neighborhood) : Neighborhood :=
  {| current_size_ := value;
     allocated_size_ := allocated_size_ n;
     records_ := records_ n |}.

(** [configuration[num].current_size_ = value]. *)
Definition set_current_size (num value : nat) (configuration : ParticleConfiguration)
    : option ParticleConfiguration :=
  match configuration !! num with
  | Some n => Some (<[num := with_current_size value n]> configuration)
  | None => None
  end.

(** A configuration with the current size of the entries below [n] set to
    zero and the entries from [n] on left as they are. *)
Definition zero_first (n : nat) (configuration : ParticleConfiguration)
    : ParticleConfiguration :=
  imap (fun i nb => if decide (i < n) then with_current_size 0 nb else nb) configuration.

Section WithPartitioner.

Variable ap : partitioner.

(** [BaseInnerRelation::updateConfigurationMemories]. *)
Definition BaseInnerRelation_updateConfigurationMemories
    (base_particles : BaseParticles) (this : BaseInnerRelation) : BaseInnerRelation :=
  let updated_size := real_particles_bound_ base_particles in
  {| inner_configuration_ :=
       resize updated_size Neighborhood_new (inner_configuration_ this) |}.

(** [BaseInnerRelation::BaseInnerRelation]. *)
Definition BaseInnerRelation_new (real_body : SPHBody) : BaseInnerRelation :=
  BaseInnerRelation_updateConfigurationMemories (getBaseParticles real_body)
    {| inner_configuration_ := [] |}.

(** [BaseInnerRelation::resetNeighborhoodCurrentSize]. *)
Definition BaseInnerRelation_resetNeighborhoodCurrentSize
    (base_particles : BaseParticles) (this : BaseInnerRelation)
    : option BaseInnerRelation :=
  match
    parallel_for
      {| r_begin := 0; r_end := total_real_particles_ base_particles |}
      (fun r => for_size_t (r_begin r) (r_end r) (fun num => set_current_size num 0))
      ap (inner_configuration_ this)
  with
  | Some configuration => Some {| inner_configuration_ := configuration |}
  | None => None
  end.

(** [BaseContactRelation::updateConfigurationMemories]. *)
Definition BaseContactRelation_updateConfigurationMemories
    (base_particles : BaseParticles) (this : BaseContactRelation) : BaseContactRelation :=
  let updated_size := real_particles_bound_ base_particles in
  {| contact_bodies_ := contact_bodies_ this;
     contact_configuration_ :=
       List.map (resize updated_size Neighborhood_new)
         (resize (length (contact_bodies_ this)) [] (contact_configuration_ this)) |}.

(** [BaseContactRelation::BaseContactRelation]. *)
Definition BaseContactRelation_new (sph_body : SPHBody)
    (contact_sph_bodies : list RealBodyPtr) : BaseContactRelation :=
  BaseContactRelation_updateConfigurationMemories (getBaseParticles sph_body)
    {| contact_bodies_ := contact_sph_bodies; contact_configuration_ := [] |}.

(** [contact_configuration_[k][num].current_size_ = 0]. *)
Definition set_contact_current_size (k num value : nat)
    (configurations : list ParticleConfiguration) : option (list ParticleConfiguration) :=
  match configurations !! k with
  | Some configuration =>
    match set_current_size num value configuration with
    | Some configuration' => Some (<[k := configuration']> configurations)
    | None => None
    end
  | None => None
  end.

(** [BaseContactRelation::resetNeighborhoodCurrentSize]. *)
Definition BaseContactRelation_resetNeighborhoodCurrentSize
    (base_particles : BaseParticles) (this : BaseContactRelation)
    : option BaseContactRelation :=
  match
    for_size_t 0 (length (contact_bodies_ this)) (fun k =>
      parallel_for
        {| r_begin := 0; r_end := total_real_particles_ base_particles |}
        (fun r => for_size_t (r_begin r) (r_end r)
                    (fun num => set_contact_current_size k num 0))
        ap) (contact_configuration_ this)
  with
  | Some configurations =>
    Some {| contact_bodies_ := contact_bodies_ this;
            contact_configuration_ := configurations |}
  | None => None
  end.

End WithPartitioner.

Section WithDynamicCast.

(** [DynamicCast] is declared in a header that is not part of the
    sources.  [DynamicCast owner casted] is [Some] of the pointer the call
    returns, [None] when the call does not return. *)
Variable DynamicCast : BodyPart -> SPHBody -> option RealBodyPtr.

(** [BodyPartsToRealBodies]: one [push_back] per body part, in order. *)
Fixpoint BodyPartsToRealBodies_from (body_parts : list BodyPart)
    (real_bodies : list RealBodyPtr) : option (list RealBodyPtr) :=
  match body_parts with
  | [] => Some real_bodies
  | part :: rest =>
    match DynamicCast part (getSPHBody part) with
    | Some p => BodyPartsToRealBodies_from rest (real_bodies ++ [p])
    | None => None
    end
  end.

Definition BodyPartsToRealBodies (body_parts : list BodyPart) : option (list RealBodyPtr) :=
  BodyPartsToRealBodies_from body_parts [].

End WithDynamicCast.

(** The real bodies among the bodies of a list of parts, in the words of
    the spec: the others are dropped. *)
Definition real_bodies_among (body_parts : list BodyPart) : list RealBodyPtr :=
  List.map pointer_to
    (List.filter is_RealBody (List.map getSPHBody body_parts)).

(** *** Instances for the statements *)

(** The partitioner that keeps a range in one block. *)
Definition one_block : partitioner := fun range => [range].

(** A cast that ends the program on a body that is not a [RealBody]. *)
Definition checked_cast (owner : BodyPart) (casted : SPHBody) : option RealBodyPtr :=
  if is_RealBody casted then Some (pointer_to casted) else None.

Definition neighborhood_of_size (n : nat) : Neighborhood :=
  {| current_size_ := n; allocated_size_ := n; records_ := [] |}.

Definition body_of (name : nat) (real : bool) (total bound : nat) : SPHBody :=
  {| body_name := name;
     is_RealBody := real;
     getSPHSystem := {| resolution_ref_ := 1%R |};
     getBaseParticles :=
       {| total_real_particles_ := total; real_particles_bound_ := bound |} |}.

(** A part of a body that is not a [RealBody]. *)
Definition observer_part : BodyPart :=
  {| body_part_name := 0; getSPHBody := body_of 7 false 0 0 |}.

Definition water_part : BodyPart :=
  {| body_part_name := 1; getSPHBody := body_of 1 true 4 6 |}.

End BodyRelation.

(** * Properties *)

(** ** Arithmetic of the helpers *)

Module DataTypeFacts.
Import DataType.
Local Open Scope R_scope.

Lemma powerN_of_nat (a : Real) (n : nat) : powerN a (Z.of_nat n) = a ^ n.
Proof. unfold powerN. now rewrite Nat2Z.id. Qed.

Lemma powerN_0 (a : Real) : powerN a 0 = 1.
Proof. reflexivity. Qed.

Lemma Dimensions_of_nat (b : Build) :
  IZR (Dimensions b) = INR (Z.to_nat (Dimensions b)).
Proof. destruct b; simpl; lra. Qed.

(** [pow(2^n, 1/D)] is [2^(n/D)]. *)
Lemma pow_root_of_power (n : nat) (d : Real) :
  pow (2 ^ n) (1 / d) = Rpower 2 (INR n / d).
Proof.
  unfold pow.
  rewrite <- (Rpower_pow n 2) by lra.
  rewrite Rpower_mult.
  f_equal. unfold Rdiv. ring.
Qed.

(** Raising [2^(n/D)] to the power [D] gives [2^n] back. *)
Lemma Rpower_root_pow (n d : nat) :
  (0 < d)%nat -> Rpower 2 (INR n / INR d) ^ d = 2 ^ n.
Proof.
  intros Hd.
  assert (Hne : INR d <> 0) by (apply not_0_INR; lia).
  rewrite <- Rpower_pow by apply exp_pos.
  rewrite Rpower_mult.
  replace (INR n / INR d * INR d) with (INR n) by (field; exact Hne).
  apply Rpower_pow. lra.
Qed.

Lemma Rpower_two_pos (y : Real) : 0 < Rpower 2 y.
Proof. apply exp_pos. Qed.

Lemma Rpower_one_base (y : Real) : Rpower 1 y = 1.
Proof. unfold Rpower. rewrite ln_1, Rmult_0_r. apply exp_0. Qed.

Lemma int_cast_nonneg (x : Real) : 0 <= x -> (0 <= int_cast x)%Z.
Proof.
  intros Hx. unfold int_cast. destruct (Rle_dec 0 x) as [_|Hn]; [|contradiction].
  destruct (base_Int_part x) as [_ Hup].
  assert (Hlt : IZR (-1) < IZR (Int_part x)) by (simpl; lra).
  apply lt_IZR in Hlt. lia.
Qed.

Lemma norm_nonneg (v : Vecd) : 0 <= norm v.
Proof. destruct v; apply sqrt_pos. Qed.

Lemma norm_Vecd_zero (b : Build) : norm (Vecd_zero b) = 0.
Proof.
  destruct b; simpl.
  - replace (0 * 0 + 0 * 0) with 0 by ring. apply sqrt_0.
  - replace (0 * 0 + 0 * 0 + 0 * 0) with 0 by ring. apply sqrt_0.
Qed.

End DataTypeFacts.

(** ** The resolution policies *)

Module AdaptationFacts.
Import DataType Kernels Bodies Adaptation DataTypeFacts.
Local Open Scope R_scope.

(** *** The reference number density as a lattice sum *)

Section ReferenceDensity.

Variable K : Kernel.

Lemma Rsum_app (l1 l2 : list Real) : Rsum (l1 ++ l2) = Rsum l1 + Rsum l2.
Proof.
  induction l1 as [|x l1 IH]; simpl.
  - ring.
  - rewrite IH. ring.
Qed.

Lemma inside_weights_app (l1 l2 : list Vecd) :
  inside_weights K (l1 ++ l2) = inside_weights K l1 ++ inside_weights K l2.
Proof. unfold inside_weights. now rewrite List.filter_app, List.map_app. Qed.

(** The innermost loop adds the weights of the offsets of one row. *)
Lemma accumulate_row (mk : Z -> Vecd) (first last : Z) (acc : Real) :
  for_int first last (fun i sigma =>
    if Rlt_dec (norm (mk i)) (CutOffRadius K)
    then sigma + W K (norm (mk i)) (mk i)
    else sigma) acc
  = acc + Rsum (inside_weights K (List.map mk (int_range first last))).
Proof.
  unfold for_int. generalize (int_range first last) as l. intros l. revert acc.
  induction l as [|i l IH]; intros acc; simpl.
  - ring.
  - rewrite IH. unfold inside_weights. simpl. unfold Rltb.
    destruct (Rlt_dec (norm (mk i)) (CutOffRadius K)); simpl; ring.
Qed.

(** An outer loop whose body adds the weights of [row j] adds the weights
    of all the rows. *)
Lemma accumulate_rows (row : Z -> list Vecd) (body : Z -> Real -> Real)
    (first last : Z) (acc : Real) :
  (forall j a, body j a = a + Rsum (inside_weights K (row j))) ->
  for_int first last body acc
  = acc + Rsum (inside_weights K (List.flat_map row (int_range first last))).
Proof.
  intros Hbody. unfold for_int.
  generalize (int_range first last) as l. intros l. revert acc.
  induction l as [|j l IH]; intros acc; simpl.
  - unfold inside_weights. simpl. ring.
  - rewrite IH, Hbody, inside_weights_app, Rsum_app. ring.
Qed.

Lemma computeReferenceNumberDensity_lattice_sum (s : Real) (zero : Vecd) :
  computeReferenceNumberDensity K s zero = lattice_sum K s zero.
Proof.
  unfold computeReferenceNumberDensity, lattice_sum.
  set (depth := (int_cast (CutOffRadius K / s) + 1)%Z).
  destruct zero as [x y|x y z]; cbv zeta; unfold lattice_offsets.
  - rewrite (accumulate_rows
               (fun j => List.map (fun i => Vec2d (IZR i * s) (IZR j * s))
                           (int_range (- depth) depth))).
    + ring.
    + intros j a. apply (accumulate_row (fun i => Vec2d (IZR i * s) (IZR j * s))).
  - rewrite (accumulate_rows
               (fun k => List.flat_map (fun j =>
                           List.map (fun i => Vec3d (IZR i * s) (IZR j * s) (IZR k * s))
                             (int_range (- depth) depth))
                           (int_range (- depth) depth))).
    + ring.
    + intros k a.
      apply (accumulate_rows
               (fun j => List.map (fun i => Vec3d (IZR i * s) (IZR j * s) (IZR k * s))
                           (int_range (- depth) depth))).
      intros j a'.
      apply (accumulate_row (fun i => Vec3d (IZR i * s) (IZR j * s) (IZR k * s))).
Qed.

Lemma In_int_range (first last i : Z) :
  In i (int_range first last) <-> (first <= i <= last)%Z.
Proof.
  unfold int_range. rewrite List.in_map_iff. split.
  - intros (k & <- & Hk). apply List.in_seq in Hk. lia.
  - intros Hi. exists (Z.to_nat (i - first)). split; [lia|].
    apply List.in_seq. lia.
Qed.

Lemma In_lattice_offsets_2d (x y : Real) (depth : Z) (s : Real) (v : Vecd) :
  In v (lattice_offsets (Vec2d x y) depth s) <->
  exists i j : Z, (- depth <= i <= depth)%Z /\ (- depth <= j <= depth)%Z /\
                  v = Vec2d (IZR i * s) (IZR j * s).
Proof.
  unfold lattice_offsets. rewrite List.in_flat_map. split.
  - intros (j & Hj & Hv). apply List.in_map_iff in Hv. destruct Hv as (i & <- & Hi).
    exists i, j. rewrite In_int_range in Hi, Hj. auto.
  - intros (i & j & Hi & Hj & ->). exists j. rewrite In_int_range. split; [exact Hj|].
    apply List.in_map_iff. exists i. rewrite In_int_range. auto.
Qed.

Lemma In_lattice_offsets_3d (x y z : Real) (depth : Z) (s : Real) (v : Vecd) :
  In v (lattice_offsets (Vec3d x y z) depth s) <->
  exists i j k : Z, (- depth <= i <= depth)%Z /\ (- depth <= j <= depth)%Z /\
                    (- depth <= k <= depth)%Z /\
                    v = Vec3d (IZR i * s) (IZR j * s) (IZR k * s).
Proof.
  unfold lattice_offsets. rewrite List.in_flat_map. split.
  - intros (k & Hk & Hv). apply List.in_flat_map in Hv. destruct Hv as (j & Hj & Hv).
    apply List.in_map_iff in Hv. destruct Hv as (i & <- & Hi).
    exists i, j, k. rewrite In_int_range in Hi, Hj, Hk. auto.
  - intros (i & j & k & Hi & Hj & Hk & ->). exists k. rewrite In_int_range.
    split; [exact Hk|].
    apply List.in_flat_map. exists j. rewrite In_int_range. split; [exact Hj|].
    apply List.in_map_iff. exists i. rewrite In_int_range. auto.
Qed.

(** The weights that enter the sum are those of the offsets strictly
    inside the cut-off radius. *)
Lemma In_inside_weights (offsets : list Vecd) (w : Real) :
  In w (inside_weights K offsets) <->
  exists v, In v offsets /\ norm v < CutOffRadius K /\ w = W K (norm v) v.
Proof.
  unfold inside_weights. rewrite List.in_map_iff. split.
  - intros (v & <- & Hv). apply List.filter_In in Hv. destruct Hv as [Hin Hlt].
    exists v. unfold Rltb in Hlt.
    destruct (Rlt_dec (norm v) (CutOffRadius K)); [auto | discriminate].
  - intros (v & Hin & Hlt & ->). exists v. split; [reflexivity|].
    apply List.filter_In. split; [exact Hin|]. unfold Rltb.
    destruct (Rlt_dec (norm v) (CutOffRadius K)); [reflexivity | contradiction].
Qed.

Lemma Rsum_pos (l : list Real) :
  Forall (fun w => 0 <= w) l -> Exists (fun w => 0 < w) l -> 0 < Rsum l.
Proof.
  intros Hall Hex.
  assert (Hge : forall l', Forall (fun w => 0 <= w) l' -> 0 <= Rsum l').
  { induction 1; simpl; lra. }
  induction Hex as [w l Hw | w l Hex IH];
    inversion Hall as [|? ? Hhead Htail]; subst; simpl.
  - specialize (Hge l Htail). lra.
  - specialize (IH Htail). lra.
Qed.

(** With a kernel of proper support and a positive spacing the centre of
    the lattice is counted, and the density is positive. *)
Lemma computeReferenceNumberDensity_pos (b : Build) (s : Real) :
  positive_kernel K -> 0 < s ->
  0 < computeReferenceNumberDensity K s (Vecd_zero b).
Proof.
  intros (Hcut & Hnonneg & Hcentre) Hs.
  rewrite computeReferenceNumberDensity_lattice_sum. unfold lattice_sum.
  set (depth := (int_cast (CutOffRadius K / s) + 1)%Z).
  assert (Hdepth : (- depth <= 0 <= depth)%Z).
  { assert (0 <= int_cast (CutOffRadius K / s))%Z; [|subst depth; lia].
    apply int_cast_nonneg. apply Rlt_le, Rdiv_lt_0_compat; assumption. }
  apply Rsum_pos.
  - apply List.Forall_forall. intros w Hw. apply In_inside_weights in Hw.
    destruct Hw as (v & _ & Hlt & ->). apply Hnonneg. split; [apply norm_nonneg|exact Hlt].
  - apply List.Exists_exists.
    assert (Hzero : In (Vecd_zero b) (lattice_offsets (Vecd_zero b) depth s)).
    { destruct b; simpl Vecd_zero.
      - apply In_lattice_offsets_2d. exists 0%Z, 0%Z. repeat split; try lia.
        f_equal; ring.
      - apply In_lattice_offsets_3d. exists 0%Z, 0%Z, 0%Z. repeat split; try lia.
        f_equal; ring. }
    exists (W K (norm (Vecd_zero b)) (Vecd_zero b)). split.
    + apply In_inside_weights. exists (Vecd_zero b).
      rewrite norm_Vecd_zero. auto.
    + rewrite norm_Vecd_zero. apply Hcentre, norm_Vecd_zero.
Qed.

Lemma Rsum_ge_In (l : list Real) (w : Real) :
  Forall (fun x => 0 <= x) l -> In w l -> w <= Rsum l.
Proof.
  intros Hall.
  assert (Hge : forall l', Forall (fun x => 0 <= x) l' -> 0 <= Rsum l').
  { induction 1; simpl; lra. }
  induction Hall as [|x l Hx Hl IH]; intros Hin; simpl.
  - destruct Hin.
  - destruct Hin as [-> | Hin].
    + specialize (Hge l Hl). lra.
    + specialize (IH Hin). lra.
Qed.

(** The weight of the centre is one of the weights added, and none is
    negative: the density is at least the weight of the centre. *)
Lemma computeReferenceNumberDensity_ge_centre (b : Build) (s : Real) :
  positive_kernel K -> 0 < s ->
  W K 0 (Vecd_zero b) <= computeReferenceNumberDensity K s (Vecd_zero b).
Proof.
  intros (Hcut & Hnonneg & Hcentre) Hs.
  rewrite computeReferenceNumberDensity_lattice_sum. unfold lattice_sum.
  set (depth := (int_cast (CutOffRadius K / s) + 1)%Z).
  assert (Hdepth : (- depth <= 0 <= depth)%Z).
  { assert (0 <= int_cast (CutOffRadius K / s))%Z; [|subst depth; lia].
    apply int_cast_nonneg. apply Rlt_le, Rdiv_lt_0_compat; assumption. }
  apply Rsum_ge_In.
  - apply List.Forall_forall. intros w Hw. apply In_inside_weights in Hw.
    destruct Hw as (v & _ & Hlt & ->). apply Hnonneg. split; [apply norm_nonneg|exact Hlt].
  - apply In_inside_weights. exists (Vecd_zero b).
    rewrite norm_Vecd_zero. split; [|auto].
    destruct b; simpl Vecd_zero.
    + apply In_lattice_offsets_2d. exists 0%Z, 0%Z. repeat split; try lia.
      f_equal; ring.
    + apply In_lattice_offsets_3d. exists 0%Z, 0%Z, 0%Z. repeat split; try lia.
      f_equal; ring.
Qed.

(** A lattice point other than the centre is at least one spacing away. *)
Lemma spacing_le_norm_2d (i j : Z) (s : Real) :
  0 < s -> (i <> 0 \/ j <> 0)%Z -> s <= norm (Vec2d (IZR i * s) (IZR j * s)).
Proof.
  intros Hs Hij.
  assert (Hz : (1 <= i * i + j * j)%Z) by nia.
  apply IZR_le in Hz. rewrite plus_IZR, !mult_IZR in Hz.
  rewrite <- (sqrt_square s) at 1 by lra.
  simpl. apply sqrt_le_1_alt. nra.
Qed.

Lemma spacing_le_norm_3d (i j k : Z) (s : Real) :
  0 < s -> (i <> 0 \/ j <> 0 \/ k <> 0)%Z ->
  s <= norm (Vec3d (IZR i * s) (IZR j * s) (IZR k * s)).
Proof.
  intros Hs Hijk.
  assert (Hz : (1 <= i * i + j * j + k * k)%Z) by nia.
  apply IZR_le in Hz. rewrite !plus_IZR, !mult_IZR in Hz.
  rewrite <- (sqrt_square s) at 1 by lra.
  simpl. apply sqrt_le_1_alt.
  assert (Hsq : 0 < s * s) by nra.
  replace (IZR i * s * (IZR i * s) + IZR j * s * (IZR j * s) + IZR k * s * (IZR k * s))
    with ((IZR i * IZR i + IZR j * IZR j + IZR k * IZR k) * (s * s)) by ring.
  nra.
Qed.

Lemma inside_weights_cons_in (v : Vecd) (l : list Vecd) :
  norm v < CutOffRadius K ->
  inside_weights K (v :: l) = W K (norm v) v :: inside_weights K l.
Proof.
  intros H. unfold inside_weights. simpl. unfold Rltb.
  destruct (Rlt_dec (norm v) (CutOffRadius K)); [reflexivity | contradiction].
Qed.

Lemma inside_weights_cons_out (v : Vecd) (l : list Vecd) :
  CutOffRadius K <= norm v ->
  inside_weights K (v :: l) = inside_weights K l.
Proof.
  intros H. unfold inside_weights. simpl. unfold Rltb.
  destruct (Rlt_dec (norm v) (CutOffRadius K)); [lra | reflexivity].
Qed.

(** On a lattice coarser than the cut-off radius the centre alone is
    inside, and the density is its weight. *)
Lemma computeReferenceNumberDensity_sparse (b : Build) (s : Real) :
  0 < CutOffRadius K < s ->
  computeReferenceNumberDensity K s (Vecd_zero b) = W K 0 (Vecd_zero b).
Proof.
  intros [Hcut Hs].
  assert (Hspacing : 0 < s) by lra.
  assert (Hq : 0 < CutOffRadius K / s < 1).
  { split; [apply Rdiv_lt_0_compat; assumption|].
    apply Rmult_lt_reg_r with s; [exact Hspacing|].
    unfold Rdiv. rewrite Rmult_assoc, Rinv_l by lra. lra. }
  assert (Hcast : int_cast (CutOffRadius K / s) = 0%Z).
  { unfold int_cast. destruct (Rle_dec 0 (CutOffRadius K / s)) as [_|Hn]; [|lra].
    symmetry. apply Int_part_spec. lra. }
  rewrite computeReferenceNumberDensity_lattice_sum. unfold lattice_sum.
  rewrite Hcast.
  assert (Hcentre2 : norm (Vec2d (IZR 0 * s) (IZR 0 * s)) = 0).
  { replace (IZR 0 * s) with 0 by ring. apply (norm_Vecd_zero for_2D_build). }
  assert (Hcentre3 : norm (Vec3d (IZR 0 * s) (IZR 0 * s) (IZR 0 * s)) = 0).
  { replace (IZR 0 * s) with 0 by ring. apply (norm_Vecd_zero for_3D_build). }
  destruct b; cbn [Vecd_zero lattice_offsets];
    change (int_range (- (0 + 1)) (0 + 1)) with [(-1)%Z; 0%Z; 1%Z];
    cbn [List.flat_map List.map app];
    repeat first
      [ rewrite inside_weights_cons_out
          by (apply Rle_trans with s;
              [lra | first [apply spacing_le_norm_2d | apply spacing_le_norm_3d];
                     [exact Hspacing | lia]])
      | rewrite inside_weights_cons_in by (first [rewrite Hcentre2 | rewrite Hcentre3]; lra) ].
  - rewrite Hcentre2. unfold inside_weights. simpl.
    replace (IZR 0 * s) with 0 by ring. ring.
  - rewrite Hcentre3. unfold inside_weights. simpl.
    replace (IZR 0 * s) with 0 by ring. ring.
Qed.

End ReferenceDensity.

(** *** The sample kernel meets what is expected of a kernel *)

Lemma wendland_W_1D_nonneg (q : Real) : 0 <= q -> 0 <= wendland_W_1D q.
Proof.
  intros Hq. unfold wendland_W_1D.
  apply Rmult_le_pos; [|lra].
  replace ((1 - q / 2) ^ 4) with (((1 - q / 2) ^ 2) ^ 2) by ring.
  apply pow2_ge_0.
Qed.

Lemma wendland_W_1D_0 : wendland_W_1D 0 = 1.
Proof. unfold wendland_W_1D. field. Qed.

Lemma wendland_kernel_positive (h : Real) : 0 < h -> positive_kernel (wendland_kernel h).
Proof.
  intros Hh. pose proof PI_RGT_0 as Hpi.
  assert (H2 : 0 < 7 / (4 * PI) / (h * h)).
  { repeat apply Rdiv_lt_0_compat; try lra; nra. }
  assert (H3 : 0 < 21 / (16 * PI) / (h * h * h)).
  { repeat apply Rdiv_lt_0_compat; try lra.
    repeat apply Rmult_lt_0_compat; assumption. }
  unfold positive_kernel. simpl. split; [lra|]. split.
  - intros d v [Hd _].
    assert (Hq : 0 <= wendland_W_1D (d / h)).
    { apply wendland_W_1D_nonneg. apply Rmult_le_pos; [exact Hd|].
      apply Rlt_le, Rinv_0_lt_compat, Hh. }
    destruct v; apply Rmult_le_pos; lra.
  - intros v _. replace (0 / h) with 0 by (unfold Rdiv; ring).
    rewrite wendland_W_1D_0. destruct v; lra.
Qed.

Lemma wendland_kernel_falloff (h : Real) : falloff_kernel (wendland_kernel h).
Proof.
  unfold falloff_kernel. simpl. split; [lra|]. split; [rewrite wendland_W_1D_0; lra|].
  split.
  - unfold wendland_W_1D. field.
  - unfold wendland_W_1D. reg.
Qed.

Section Policies.

Variable build : Build.
Variable KernelWendlandC2 : Real -> Kernel.

(** C8.  A local-refinement policy constructed with refinement level [L]
    (a natural number) has [spacingMin = spacingRef / 2^L] and
    [hRatioMax = 2^L]; for [L = 2] these are [spacingRef / 4] and [4]. *)
Theorem local_refinement_spacing_derivation :
  (forall (sph_body : SPHBody) (h_spacing_ratio system_refinement_ratio : Real) (L : nat),
     let p := ParticleWithLocalRefinement_new build KernelWendlandC2 sph_body
                h_spacing_ratio system_refinement_ratio (Z.of_nat L) in
     local_refinement_level_ p = Z.of_nat L /\
     spacing_min_ p = spacing_ref_ p / 2 ^ L /\
     h_ratio_max_ p = 2 ^ L) /\
  (forall (sph_body : SPHBody) (h_spacing_ratio system_refinement_ratio : Real),
     let p := ParticleWithLocalRefinement_new build KernelWendlandC2 sph_body
                h_spacing_ratio system_refinement_ratio 2 in
     spacing_min_ p = spacing_ref_ p / 4 /\
     h_ratio_max_ p = 4).
Proof.
  split.
  - intros sph_body h r L p. subst p. cbn.
    unfold SPHAdaptation_MostRefinedSpacing.
    rewrite powerN_of_nat. auto.
  - intros sph_body h r p. subst p.
    assert (H4 : powerN 2 2 = 4) by (unfold powerN; simpl; lra).
    cbn [spacing_min_ h_ratio_max_ spacing_ref_ as_SPHAdaptation
         ParticleWithLocalRefinement_new MostRefinedSpacing].
    unfold SPHAdaptation_MostRefinedSpacing. rewrite H4. auto.
Qed.

(** C10.  A split/merge policy constructed with refinement level [L] in
    [D] dimensions has [spacingMin = spacingRef / 2^(L/D)], hence
    [minimumVolume = spacingRef^D / 2^L] and
    [hRatioMax = spacingRef / spacingMin = 2^(L/D)]; for [L > 0] this
    [spacingMin] is not [spacingRef / 2^L].  The reference resolution and
    the refinement ratio are not zero. *)
Theorem split_merge_spacing_derivation
    (sph_body : SPHBody) (h_spacing_ratio system_resolution_ratio : Real) (L : nat) :
  resolution_ref_ (getSPHSystem sph_body) <> 0 ->
  system_resolution_ratio <> 0 ->
  let p := ParticleSplitAndMerge_new build KernelWendlandC2 sph_body
             h_spacing_ratio system_resolution_ratio (Z.of_nat L) in
  let D := Z.to_nat (Dimensions build) in
  spacing_min_ p = spacing_ref_ p / Rpower 2 (INR L / INR D) /\
  minimum_volume_ p = spacing_ref_ p ^ D / 2 ^ L /\
  h_ratio_max_ p = spacing_ref_ p / spacing_min_ p /\
  h_ratio_max_ p = Rpower 2 (INR L / INR D) /\
  ((0 < L)%nat -> spacing_min_ p <> spacing_ref_ p / 2 ^ L).
Proof.
  intros Hres Hratio p D.
  assert (HD : (0 < D)%nat) by (subst D; destruct build; simpl; lia).
  assert (Hmin : spacing_min_ p = spacing_ref_ p / Rpower 2 (INR L / INR D)).
  { subst p D. cbn. unfold ParticleSplitAndMerge_MostRefinedSpacing.
    rewrite powerN_of_nat, pow_root_of_power, Dimensions_of_nat. reflexivity. }
  assert (Href : spacing_ref_ p <> 0).
  { subst p. cbn. unfold Rdiv. apply Rmult_integral_contrapositive_currified; auto.
    now apply Rinv_neq_0_compat. }
  pose proof (Rpower_two_pos (INR L / INR D)) as Hpos.
  split; [exact Hmin|].
  split.
  { change (minimum_volume_ p) with (powerN (spacing_min_ p) (Dimensions build)).
    unfold powerN. fold D. rewrite Hmin.
    unfold Rdiv at 1. rewrite Rpow_mult_distr, pow_inv, Rpower_root_pow by exact HD.
    reflexivity. }
  split; [reflexivity|].
  split.
  { change (h_ratio_max_ p) with (spacing_ref_ p / spacing_min_ p).
    rewrite Hmin. field. split; lra. }
  intros HL Heq. rewrite Hmin in Heq.
  assert (Hlt : Rpower 2 (INR L / INR D) < 2 ^ L).
  { rewrite <- (Rpower_pow L 2) by lra.
    apply Rpower_lt; [lra|].
    assert (0 < INR L) by (apply lt_0_INR; exact HL).
    assert (1 < INR D).
    { subst D. destruct build; simpl; lra. }
    apply Rmult_lt_reg_r with (INR D); [lra|].
    unfold Rdiv. rewrite Rmult_assoc, Rinv_l by lra. nra. }
  assert (H2 : 0 < 2 ^ L) by (apply pow_lt; lra).
  apply (f_equal (fun x => x * Rpower 2 (INR L / INR D) * 2 ^ L / spacing_ref_ p)) in Heq.
  field_simplify in Heq; lra.
Qed.

(** *** Construction and reset of the base policy *)

Lemma rescale_spacing (res r0 r1 : Real) : r0 <> 0 -> res / r0 * r0 / r1 = res / r1.
Proof. intros H0. unfold Rdiv. rewrite (Rmult_assoc res), Rinv_l by exact H0. ring. Qed.

(** After a reset of a freshly constructed base policy every member but
    [h_ratio_max_] is what a construction with the new ratios gives;
    [h_ratio_max_] is the new [h_ref_]. *)
Lemma resetAdaptationRatios_after_new (res s0 r0 s1 r1 : Real) :
  res <> 0 -> r0 <> 0 -> r1 <> 0 ->
  let fresh := SPHAdaptation_new build KernelWendlandC2 res s1 r1 in
  let reset := resetAdaptationRatios build KernelWendlandC2 IsSPHAdaptation
                 (SPHAdaptation_new build KernelWendlandC2 res s0 r0) s1 r1 in
  h_spacing_ratio_ reset = h_spacing_ratio_ fresh /\
  system_refinement_ratio_ reset = system_refinement_ratio_ fresh /\
  local_refinement_level_ reset = local_refinement_level_ fresh /\
  spacing_ref_ reset = spacing_ref_ fresh /\
  h_ref_ reset = h_ref_ fresh /\
  kernel_ptr_ reset = kernel_ptr_ fresh /\
  sigma0_ref_ reset = sigma0_ref_ fresh /\
  spacing_min_ reset = spacing_min_ fresh /\
  h_ratio_max_ reset = h_ref_ fresh.
Proof.
  intros Hres H0 H1 fresh reset. subst fresh reset. cbn.
  rewrite (rescale_spacing res r0 r1 H0).
  repeat (split; [reflexivity|]).
  unfold SPHAdaptation_MostRefinedSpacing. rewrite powerN_0.
  field. auto.
Qed.

(** A second reset with the same arguments changes nothing. *)
Lemma resetAdaptationRatios_idempotent (dyn : DynamicType) (this : SPHAdaptation)
    (s r : Real) :
  r <> 0 ->
  let once := resetAdaptationRatios build KernelWendlandC2 dyn this s r in
  resetAdaptationRatios build KernelWendlandC2 dyn once s r = once.
Proof.
  intros Hr once. subst once. unfold resetAdaptationRatios. cbn.
  set (x := spacing_ref_ this * system_refinement_ratio_ this / r).
  replace (x * r / r) with x by (field; exact Hr).
  reflexivity.
Qed.

(** C1 (evaluation at the failing input).  The base policy constructed
    from [(0.1, 1.3, 1.0)] and reset with [(1.3, 1.0)] agrees with a fresh
    construction on [spacing_ref_], [h_ref_], [sigma0_ref_] and
    [spacing_min_], but its [h_ratio_max_] is [0.13] where construction
    gives [1]; the minimum smoothing length read from it is [1]. *)
Theorem resetAdaptationRatios_h_ratio_max_at_failing_input :
  let fresh := SPHAdaptation_new build KernelWendlandC2 (1 / 10) (13 / 10) 1 in
  let reset := resetAdaptationRatios build KernelWendlandC2 IsSPHAdaptation
                 fresh (13 / 10) 1 in
  spacing_ref_ reset = spacing_ref_ fresh /\
  h_ref_ reset = h_ref_ fresh /\
  sigma0_ref_ reset = sigma0_ref_ fresh /\
  spacing_min_ reset = spacing_min_ fresh /\
  h_ratio_max_ fresh = 1 /\
  h_ratio_max_ reset = 13 / 100 /\
  ~ 1 <= h_ratio_max_ reset /\
  MinimumSmoothingLength fresh = 13 / 100 /\
  MinimumSmoothingLength reset = 1.
Proof.
  intros fresh reset.
  assert (H10 : (1 / 10 : R) <> 0) by lra.
  assert (H1 : (1 : R) <> 0) by lra.
  destruct (resetAdaptationRatios_after_new (1 / 10) (13 / 10) 1 (13 / 10) 1 H10 H1 H1)
    as (_ & _ & _ & Hs & Hh & _ & Hsig & Hmin & Hmax).
  fold fresh in Hs, Hh, Hsig, Hmin, Hmax. fold reset in Hs, Hh, Hsig, Hmin, Hmax.
  assert (Hhref : h_ref_ fresh = 13 / 100) by (subst fresh; cbn; lra).
  repeat (split; [assumption|]).
  split; [reflexivity|].
  split; [rewrite Hmax; exact Hhref|].
  split; [rewrite Hmax, Hhref; lra|].
  unfold MinimumSmoothingLength. rewrite Hh, Hmax, Hhref.
  change (h_ratio_max_ fresh) with (powerN 2 0). rewrite powerN_0.
  split; field.
Qed.

(** C9.  The base policy constructed from a positive reference
    resolution, smoothing ratio and refinement ratio, with a cut-off
    radius of fewer spacings than an [int] counts, has
    [spacingRef = referenceResolution / refinementRatio] and
    [hRef = smoothingRatio * spacingRef]; its kernel is the default kernel
    at [hRef] and its reference number density is the value that
    [computeReferenceNumberDensity] finds for this kernel and spacing.
    The density is positive: it is at least the weight of the centre of the
    lattice, and equal to it when the cut-off radius is below one spacing.
    It is determined by the spacing and the smoothing length: any two
    constructions that agree on these agree on the density.  The arguments
    [(0.1, 1.3, 1.0)] give [spacingRef = 0.1] and [hRef = 0.13].  The
    default kernel is one of proper support. *)
Theorem base_policy_construction (res s r : Real) :
  0 < res -> 0 < s -> 0 < r ->
  positive_kernel (KernelWendlandC2 (s * (res / r))) ->
  search_depth_in_range (CutOffRadius (KernelWendlandC2 (s * (res / r)))) (res / r) ->
  let a := SPHAdaptation_new build KernelWendlandC2 res s r in
  let centre := W (kernel_ptr_ a) 0 (Vecd_zero build) in
  spacing_ref_ a = res / r /\
  h_ref_ a = s * spacing_ref_ a /\
  kernel_ptr_ a = KernelWendlandC2 (h_ref_ a) /\
  sigma0_ref_ a =
    computeReferenceNumberDensity (kernel_ptr_ a) (spacing_ref_ a) (Vecd_zero build) /\
  0 < centre <= sigma0_ref_ a /\
  (CutOffRadius (kernel_ptr_ a) < spacing_ref_ a -> sigma0_ref_ a = centre) /\
  (forall res' s' r' : Real,
     let a' := SPHAdaptation_new build KernelWendlandC2 res' s' r' in
     spacing_ref_ a' = spacing_ref_ a -> h_ref_ a' = h_ref_ a ->
     sigma0_ref_ a' = sigma0_ref_ a) /\
  (res = 1 / 10 -> s = 13 / 10 -> r = 1 ->
   spacing_ref_ a = 1 / 10 /\ h_ref_ a = 13 / 100).
Proof.
  intros Hres Hs Hr HK _ a centre. subst centre a. cbn.
  assert (Hsp : 0 < res / r) by (apply Rdiv_lt_0_compat; assumption).
  repeat (split; [reflexivity|]).
  split.
  { split.
    - destruct HK as (_ & _ & Hcentre). apply Hcentre, norm_Vecd_zero.
    - apply computeReferenceNumberDensity_ge_centre; assumption. }
  split.
  { intros Hsparse. apply computeReferenceNumberDensity_sparse.
    split; [apply HK | exact Hsparse]. }
  split.
  { intros res' s' r' Hspacing Hh. rewrite Hh, Hspacing. reflexivity. }
  intros -> -> ->. split; field.
Qed.


End Policies.

(** *** The smoothed target spacing *)

Section SmoothedSpacing.

Variable this : SPHAdaptation.
Variable t : Real.
Hypothesis t_pos : 0 < t.

Let K : Kernel := kernel_ptr_ this.
Let boundary : Real := 2 * t * KernelSize K.

Lemma ratio_below_kernel_size (m : Real) :
  m / (2 * t) < KernelSize K <-> m < boundary.
Proof.
  unfold boundary. split; intros H.
  - apply Rmult_lt_reg_r with (/ (2 * t)).
    + apply Rinv_0_lt_compat. lra.
    + replace (2 * t * KernelSize K * / (2 * t)) with (KernelSize K) by (field; lra).
      exact H.
  - apply Rmult_lt_compat_r with (r := / (2 * t)) in H.
    + replace (2 * t * KernelSize K * / (2 * t)) with (KernelSize K) in H by (field; lra).
      exact H.
    + apply Rinv_0_lt_compat. lra.
Qed.

Lemma smoothedSpacing_inside (m : Real) :
  m / (2 * t) < KernelSize K ->
  smoothedSpacing this m t
  = W_1D K (m / (2 * t)) / W_1D K 0 * spacing_min_ this
    + (1 - W_1D K (m / (2 * t)) / W_1D K 0) * spacing_ref_ this.
Proof.
  intros H. unfold smoothedSpacing. fold K.
  destruct (Rlt_dec (m / (2 * t)) (KernelSize K)); [reflexivity | contradiction].
Qed.

Lemma smoothedSpacing_outside (m : Real) :
  ~ m / (2 * t) < KernelSize K -> smoothedSpacing this m t = spacing_ref_ this.
Proof.
  intros H. unfold smoothedSpacing. fold K.
  destruct (Rlt_dec (m / (2 * t)) (KernelSize K)); [contradiction | reflexivity].
Qed.

Lemma smoothedSpacing_continuous_at_boundary :
  falloff_kernel K ->
  continuity_pt (fun m => smoothedSpacing this m t) boundary.
Proof.
  intros (Hsize & Hw0 & Hend & Hcont).
  assert (Hat : smoothedSpacing this boundary t = spacing_ref_ this).
  { apply smoothedSpacing_outside. rewrite ratio_below_kernel_size. lra. }
  unfold continuity_pt, continue_in, limit1_in, limit_in. simpl.
  unfold R_dist. rewrite Hat. intros eps Heps.
  set (A := Rabs (spacing_min_ this - spacing_ref_ this)).
  set (B := Rabs (W_1D K 0)).
  assert (HA : 0 <= A) by apply Rabs_pos.
  assert (HB : 0 < B) by (apply Rabs_pos_lt; exact Hw0).
  assert (Heps' : eps * B / (A + 1) > 0).
  { apply Rdiv_lt_0_compat; [apply Rmult_lt_0_compat; lra | lra]. }
  destruct (Hcont (eps * B / (A + 1)) Heps') as (alp & Halp & Hlim).
  simpl in Hlim. unfold R_dist in Hlim. rewrite Hend in Hlim.
  exists (2 * t * alp). split; [nra|].
  intros m [_ Hm].
  destruct (Rlt_dec (m / (2 * t)) (KernelSize K)) as [Hin|Hout].
  - rewrite (smoothedSpacing_inside m Hin).
    set (q := m / (2 * t)) in *.
    assert (Hq : Rabs (W_1D K q - 0) < eps * B / (A + 1)).
    { apply Hlim. split.
      - split; [exact I | lra].
      - replace (q - KernelSize K) with ((m - boundary) * / (2 * t))
          by (unfold q, boundary; field; lra).
        rewrite Rabs_mult, (Rabs_pos_eq (/ (2 * t)))
          by (apply Rlt_le, Rinv_0_lt_compat; lra).
        apply Rmult_lt_reg_r with (2 * t); [lra|].
        rewrite Rmult_assoc, Rinv_l by lra. lra. }
    rewrite Rminus_0_r in Hq.
    replace (W_1D K q / W_1D K 0 * spacing_min_ this
             + (1 - W_1D K q / W_1D K 0) * spacing_ref_ this - spacing_ref_ this)
      with (W_1D K q * / W_1D K 0 * (spacing_min_ this - spacing_ref_ this))
      by (field; exact Hw0).
    rewrite !Rabs_mult, Rabs_inv. fold A B.
    assert (Hw : Rabs (W_1D K q) * / B < eps / (A + 1)).
    { apply Rmult_lt_reg_r with B; [exact HB|].
      rewrite Rmult_assoc, Rinv_l by lra.
      replace (eps / (A + 1) * B) with (eps * B / (A + 1)) by (field; lra). lra. }
    assert (Hw' : 0 <= Rabs (W_1D K q) * / B).
    { apply Rmult_le_pos; [apply Rabs_pos | apply Rlt_le, Rinv_0_lt_compat, HB]. }
    assert (Hlt : Rabs (W_1D K q) * / B * (A + 1) < eps).
    { apply Rmult_lt_compat_r with (r := A + 1) in Hw; [|lra].
      replace (eps / (A + 1) * (A + 1)) with eps in Hw by (field; lra). exact Hw. }
    nra.
  - rewrite (smoothedSpacing_outside m Hout).
    replace (spacing_ref_ this - spacing_ref_ this) with 0 by ring.
    rewrite Rabs_R0. lra.
Qed.

(** C7.  For a non-negative measure [m] and a positive thickness [t],
    [smoothedSpacing] takes [ratio = m / (2 t)]; below the kernel size it
    returns [w spacingMin + (1 - w) spacingRef] with
    [w = W_1D(ratio) / W_1D(0)], otherwise [spacingRef].  It is
    [spacingMin] at [m = 0], [spacingRef] from the kernel-size boundary
    on, and continuous at that boundary.  The one-dimensional profile of
    the kernel falls off to zero at the kernel size. *)
Theorem smoothedSpacing_blend :
  falloff_kernel K ->
  (forall m, 0 <= m ->
     (m / (2 * t) < KernelSize K ->
      smoothedSpacing this m t
      = W_1D K (m / (2 * t)) / W_1D K 0 * spacing_min_ this
        + (1 - W_1D K (m / (2 * t)) / W_1D K 0) * spacing_ref_ this) /\
     (~ m / (2 * t) < KernelSize K ->
      smoothedSpacing this m t = spacing_ref_ this)) /\
  smoothedSpacing this 0 t = spacing_min_ this /\
  (forall m, 2 * t * KernelSize K <= m -> smoothedSpacing this m t = spacing_ref_ this) /\
  continuity_pt (fun m => smoothedSpacing this m t) (2 * t * KernelSize K).
Proof.
  intros HK. pose proof HK as (Hsize & Hw0 & Hend & Hcont).
  split.
  { intros m _. split; [apply smoothedSpacing_inside | apply smoothedSpacing_outside]. }
  split.
  { rewrite smoothedSpacing_inside.
    - replace (0 / (2 * t)) with 0 by (unfold Rdiv; ring). field. exact Hw0.
    - replace (0 / (2 * t)) with 0 by (unfold Rdiv; ring). exact Hsize. }
  split.
  { intros m Hm. apply smoothedSpacing_outside. rewrite ratio_below_kernel_size.
    unfold boundary. lra. }
  apply smoothedSpacing_continuous_at_boundary. exact HK.
Qed.

End SmoothedSpacing.

(** *** Split and merge thresholds *)

Section SplitMerge.

Variable build : Build.
Variable KernelWendlandC2 : Real -> Kernel.
Variable Eps : Real.

(** Construction and reset both leave [minimum_volume_] equal to
    [spacing_min_] raised to the dimension. *)
Lemma constructed_minimum_volume (this : ParticleSplitAndMerge) :
  constructed build KernelWendlandC2 this ->
  minimum_volume_ this = powerN (spacing_min_ this) (Dimensions build).
Proof. intros H. destruct H; reflexivity. Qed.

(** C3.  For a split/merge policy, [isSplitAllowed V] holds exactly when
    [V - 2 minimumVolume > -Eps] and [mergeResolutionCheck V] exactly when
    [V - 1.2 minimumVolume < Eps]; in two dimensions with
    [spacingMin = 0.05] the minimum volume is [0.0025], a volume of
    [0.006] may be split and a volume of [0.0026] may be merged.  [Eps] is
    a positive tolerance. *)
Theorem split_merge_volume_checks (this : ParticleSplitAndMerge) :
  constructed build KernelWendlandC2 this ->
  0 < Eps ->
  (forall V : Real,
     (isSplitAllowed Eps this V = true <-> V - 2 * minimum_volume_ this > - Eps) /\
     (mergeResolutionCheck build Eps this V = true
        <-> V - 12 / 10 * minimum_volume_ this < Eps)) /\
  (build = for_2D_build ->
   spacing_min_ this = 5 / 100 ->
   minimum_volume_ this = 25 / 10000 /\
   isSplitAllowed Eps this (6 / 1000) = true /\
   mergeResolutionCheck build Eps this (26 / 10000) = true).
Proof.
  intros Hc HEps.
  pose proof (constructed_minimum_volume this Hc) as Hvol.
  assert (Hiff : forall V : Real,
     (isSplitAllowed Eps this V = true <-> V - 2 * minimum_volume_ this > - Eps) /\
     (mergeResolutionCheck build Eps this V = true
        <-> V - 12 / 10 * minimum_volume_ this < Eps)).
  { intros V. unfold isSplitAllowed, mergeResolutionCheck. rewrite <- Hvol.
    split.
    - destruct (Rgt_dec _ _); split; intros; try assumption; try reflexivity;
        [discriminate | contradiction].
    - destruct (Rlt_dec _ _); split; intros; try assumption; try reflexivity;
        [discriminate | contradiction]. }
  split; [exact Hiff|].
  intros Hb Hmin.
  assert (Hv : minimum_volume_ this = 25 / 10000).
  { rewrite Hvol, Hmin, Hb. unfold powerN. simpl. lra. }
  split; [exact Hv|].
  split; apply Hiff; rewrite Hv; lra.
Qed.

End SplitMerge.

(** *** Instances *)

(** A local-refinement policy on a body of positive resolution keeps
    [spacingMin <= spacingRef] and [hRatioMax >= 1]. *)
Theorem local_refinement_invariants (build : Build) (KernelWendlandC2 : Real -> Kernel)
    (sph_body : SPHBody) (h_spacing_ratio system_refinement_ratio : Real) (L : nat) :
  0 < resolution_ref_ (getSPHSystem sph_body) ->
  0 < system_refinement_ratio ->
  let p := ParticleWithLocalRefinement_new build KernelWendlandC2 sph_body
             h_spacing_ratio system_refinement_ratio (Z.of_nat L) in
  0 < spacing_min_ p <= spacing_ref_ p /\
  1 <= h_ratio_max_ p /\
  MinimumSmoothingLength p = h_ref_ p / 2 ^ L.
Proof.
  intros Hres Hratio p.
  assert (Hpow : 1 <= 2 ^ L) by (apply pow_R1_Rle; lra).
  assert (Hsp : 0 < spacing_ref_ p).
  { subst p. cbn. apply Rdiv_lt_0_compat; assumption. }
  assert (Hmin : spacing_min_ p = spacing_ref_ p / 2 ^ L).
  { subst p. cbn. unfold SPHAdaptation_MostRefinedSpacing. now rewrite powerN_of_nat. }
  assert (Hmax : h_ratio_max_ p = 2 ^ L).
  { subst p. cbn. now rewrite powerN_of_nat. }
  rewrite Hmin, Hmax. unfold MinimumSmoothingLength. rewrite Hmax.
  split; [|split; [exact Hpow | reflexivity]].
  split.
  - apply Rdiv_lt_0_compat; lra.
  - apply Rmult_le_reg_r with (2 ^ L); [lra|].
    unfold Rdiv. rewrite Rmult_assoc, Rinv_l by lra. nra.
Qed.

Lemma local_refinement_invariants_witness :
  let p := ParticleWithLocalRefinement_new for_3D_build wendland_kernel
             (sample_body (1 / 10)) (13 / 10) 1 (Z.of_nat 2) in
  0 < spacing_min_ p <= spacing_ref_ p /\ 1 <= h_ratio_max_ p.
Proof.
  intros p.
  destruct (local_refinement_invariants for_3D_build wendland_kernel
              (sample_body (1 / 10)) (13 / 10) 1 2) as (H1 & H2 & _).
  - simpl. lra.
  - lra.
  - split; assumption.
Defined.

(** A reset repeated with the ratios [(1.3, 2)] on the policy of the
    scenario. *)
Lemma resetAdaptationRatios_idempotent_witness :
  let once := resetAdaptationRatios for_2D_build wendland_kernel IsSPHAdaptation
                (SPHAdaptation_new for_2D_build wendland_kernel (1 / 10) (13 / 10) 1)
                (13 / 10) 2 in
  resetAdaptationRatios for_2D_build wendland_kernel IsSPHAdaptation once (13 / 10) 2 = once.
Proof.
  apply (resetAdaptationRatios_idempotent for_2D_build wendland_kernel). lra.
Defined.

(** C10 (witness): level 2 in two dimensions, resolution [0.1]. *)
Lemma split_merge_spacing_derivation_witness :
  let p := ParticleSplitAndMerge_new for_2D_build wendland_kernel
             (sample_body (1 / 10)) (13 / 10) 1 (Z.of_nat 2) in
  spacing_min_ p = spacing_ref_ p / Rpower 2 (INR 2 / INR 2) /\
  minimum_volume_ p = spacing_ref_ p ^ 2 / 2 ^ 2 /\
  h_ratio_max_ p = Rpower 2 (INR 2 / INR 2) /\
  spacing_min_ p <> spacing_ref_ p / 2 ^ 2.
Proof.
  intros p.
  destruct (split_merge_spacing_derivation for_2D_build wendland_kernel
              (sample_body (1 / 10)) (13 / 10) 1 2) as (H1 & H2 & _ & H4 & H5).
  - simpl. lra.
  - lra.
  - repeat split; try assumption. apply H5. lia.
Defined.

(** C3 (witness): the policy of level 0 on a body of resolution [0.05] in
    two dimensions, with a tolerance of [10^-6]. *)
Lemma split_merge_volume_checks_witness :
  let this := ParticleSplitAndMerge_new for_2D_build wendland_kernel
                (sample_body (5 / 100)) (13 / 10) 1 0 in
  let Eps := 1 / 1000000 in
  minimum_volume_ this = 25 / 10000 /\
  isSplitAllowed Eps this (6 / 1000) = true /\
  mergeResolutionCheck for_2D_build Eps this (26 / 10000) = true.
Proof.
  intros this Eps.
  destruct (split_merge_volume_checks for_2D_build wendland_kernel Eps this) as [_ Hscenario].
  - apply constructed_new.
  - unfold Eps. lra.
  - apply Hscenario; [reflexivity|].
    subst this. cbn. unfold ParticleSplitAndMerge_MostRefinedSpacing.
    rewrite powerN_0. unfold pow. rewrite Rpower_one_base. simpl. lra.
Defined.

(** C9 (witness): the scenario of the spec with the sample kernel, whose
    cut-off radius is 2.6 spacings. *)
Lemma base_policy_construction_witness :
  let a := SPHAdaptation_new for_2D_build wendland_kernel (1 / 10) (13 / 10) 1 in
  spacing_ref_ a = 1 / 10 /\ h_ref_ a = 13 / 100 /\
  0 < W (kernel_ptr_ a) 0 (Vec2d 0 0) <= sigma0_ref_ a.
Proof.
  intros a.
  destruct (base_policy_construction for_2D_build wendland_kernel (1 / 10) (13 / 10) 1)
    as (_ & _ & _ & _ & Hsigma & _ & _ & Hscenario); try lra.
  - apply wendland_kernel_positive. lra.
  - unfold search_depth_in_range. simpl.
    replace (2 * (13 / 10 * (1 / 10 / 1)) / (1 / 10 / 1)) with (26 / 10) by field.
    lra.
  - destruct Hscenario as [Hspacing Hh]; try reflexivity.
    repeat split; try assumption; apply Hsigma.
Defined.



(** *** Further properties of the policies *)

Section MorePolicies.

Variable build : Build.
Variable KernelWendlandC2 : Real -> Kernel.

Let D : nat := Z.to_nat (Dimensions build).

Lemma D_pos : (0 < D)%nat.
Proof. unfold D. destruct build; simpl; lia. Qed.

Lemma pow_strict_incr (x y : Real) (n : nat) :
  0 <= x < y -> (0 < n)%nat -> x ^ n < y ^ n.
Proof.
  intros Hxy Hn. destruct n as [|n]; [lia|]. simpl.
  assert (Hle : x ^ n <= y ^ n) by (apply pow_incr; lra).
  assert (Hx : 0 <= x ^ n) by (apply pow_le; lra).
  assert (Hy : 0 < y ^ n) by (apply pow_lt; lra).
  nra.
Qed.

(** The number density of a smoothing-length ratio scales with the ratio
    raised to the dimension, and grows with the ratio. *)
Theorem ReferenceNumberDensity_scaling (this : SPHAdaptation) :
  0 < sigma0_ref_ this ->
  ReferenceNumberDensity build this 1 = sigma0_ref_ this /\
  (forall k x : Real,
     ReferenceNumberDensity build this (k * x) = k ^ D * ReferenceNumberDensity build this x) /\
  (forall x : Real, 0 < x -> 0 < ReferenceNumberDensity build this x) /\
  (forall x y : Real, 0 <= x < y ->
     ReferenceNumberDensity build this x < ReferenceNumberDensity build this y).
Proof.
  intros Hsigma. unfold ReferenceNumberDensity, powerN. fold D.
  split; [rewrite pow1; ring|].
  split; [intros k x; rewrite Rpow_mult_distr; ring|].
  split.
  - intros x Hx. apply Rmult_lt_0_compat; [exact Hsigma | apply pow_lt, Hx].
  - intros x y Hxy. apply Rmult_lt_compat_l; [exact Hsigma|].
    apply pow_strict_incr; [exact Hxy | apply D_pos].
Qed.

(** A later reset overrides an earlier one, and the product of the spacing
    and the refinement ratio, the resolution of the system, is kept. *)
Theorem resetAdaptationRatios_composes (dyn : DynamicType) (this : SPHAdaptation)
    (s1 r1 s2 r2 : Real) :
  r1 <> 0 -> r2 <> 0 ->
  let once := resetAdaptationRatios build KernelWendlandC2 dyn this s1 r1 in
  resetAdaptationRatios build KernelWendlandC2 dyn once s2 r2
  = resetAdaptationRatios build KernelWendlandC2 dyn this s2 r2 /\
  spacing_ref_ once * system_refinement_ratio_ once
  = spacing_ref_ this * system_refinement_ratio_ this /\
  local_refinement_level_ once = local_refinement_level_ this.
Proof.
  intros H1 H2 once. subst once. unfold resetAdaptationRatios. cbn.
  set (x := spacing_ref_ this * system_refinement_ratio_ this).
  replace (x / r1 * r1 / r2) with (x / r2) by (field; auto).
  split; [reflexivity|]. split; [field; exact H1 | reflexivity].
Qed.

(** What construction and reset keep of a split/merge policy. *)
Lemma constructed_invariants (this : ParticleSplitAndMerge) :
  constructed build KernelWendlandC2 this ->
  spacing_min_ this
  = ParticleSplitAndMerge_MostRefinedSpacing build (spacing_ref_ this)
      (local_refinement_level_ this) /\
  minimum_volume_ this = powerN (spacing_min_ this) (Dimensions build) /\
  maximum_volume_ this = powerN (spacing_ref_ this) (Dimensions build).
Proof. intros H. destruct H; repeat split; reflexivity. Qed.

Lemma pow_root_pow (P : Real) : 0 < P -> pow P (1 / IZR (Dimensions build)) ^ D = P.
Proof.
  intros HP. unfold pow. rewrite <- Rpower_pow by apply exp_pos.
  rewrite Rpower_mult, Dimensions_of_nat. fold D.
  replace (1 / INR D * INR D) with 1.
  - apply Rpower_1, HP.
  - field. apply not_0_INR. pose proof D_pos. lia.
Qed.

(** Every refinement level halves the smallest volume: the largest volume
    is [2^level] times the smallest one, after construction and after any
    reset; hence the smallest volume is not above the largest. *)
Theorem split_merge_volume_ratio (this : ParticleSplitAndMerge) :
  constructed build KernelWendlandC2 this ->
  maximum_volume_ this = powerN 2 (local_refinement_level_ this) * minimum_volume_ this /\
  (0 <= minimum_volume_ this -> minimum_volume_ this <= maximum_volume_ this).
Proof.
  intros Hc. destruct (constructed_invariants this Hc) as (Hmin & Hvmin & Hvmax).
  set (P := powerN 2 (local_refinement_level_ this)).
  assert (HP : 1 <= P) by (unfold P, powerN; apply pow_R1_Rle; lra).
  assert (Hratio : maximum_volume_ this = P * minimum_volume_ this).
  { rewrite Hvmax, Hvmin, Hmin. unfold ParticleSplitAndMerge_MostRefinedSpacing.
    fold P. unfold powerN. fold D.
    pose proof (pow_root_pow P ltac:(lra)) as Hroot.
    set (rho := pow P (1 / IZR (Dimensions build))) in *.
    replace ((spacing_ref_ this / rho) ^ D) with (spacing_ref_ this ^ D * / rho ^ D)
      by (unfold Rdiv; now rewrite Rpow_mult_distr, pow_inv).
    rewrite Hroot. field. lra. }
  split; [exact Hratio|]. intros Hnonneg. rewrite Hratio. nra.
Qed.

End MorePolicies.

Section MoreSplitMerge.

Variable build : Build.
Variable KernelWendlandC2 : Real -> Kernel.
Variable Eps : Real.

(** Splitting and merging exclude each other: when the smallest volume is
    at least [2.5 Eps] no volume is both allowed to split and eligible for
    a merge; a particle of the smallest volume may be merged and may not
    be split. *)
Theorem split_and_merge_exclude_each_other (this : ParticleSplitAndMerge) :
  constructed build KernelWendlandC2 this ->
  0 < Eps ->
  5 / 2 * Eps <= minimum_volume_ this ->
  (forall V : Real,
     ~ (isSplitAllowed Eps this V = true /\ mergeResolutionCheck build Eps this V = true)) /\
  isSplitAllowed Eps this (minimum_volume_ this) = false /\
  mergeResolutionCheck build Eps this (minimum_volume_ this) = true.
Proof.
  intros Hc HEps Hm.
  pose proof (constructed_minimum_volume build KernelWendlandC2 this Hc) as Hvol.
  unfold isSplitAllowed, mergeResolutionCheck. rewrite <- Hvol.
  split; [|split].
  - intros V [Hs Hg].
    destruct (Rgt_dec (V - 2 * minimum_volume_ this) (- Eps)); [|discriminate].
    destruct (Rlt_dec (V - 12 / 10 * minimum_volume_ this) Eps); [|discriminate].
    lra.
  - destruct (Rgt_dec _ _); [lra | reflexivity].
  - destruct (Rlt_dec _ _); [reflexivity | lra].
Qed.

End MoreSplitMerge.

(** *** Logarithms and conversions *)

Lemma ln_two_pos : 0 < ln 2.
Proof. pose proof ln_lt_2. lra. Qed.

Lemma ln_ten_pos : 0 < ln 10.
Proof. rewrite <- ln_1. apply ln_increasing; lra. Qed.

Lemma ln_le_compat (x y : Real) : 0 < x <= y -> ln x <= ln y.
Proof.
  intros [Hx [Hlt | ->]]; [|lra]. apply Rlt_le, ln_increasing; assumption.
Qed.




(** *** Levels of the cell linked list and of the level set *)

Section Levels.

Variable build : Build.
Variable KernelWendlandC2 : Real -> Kernel.

Let D : nat := Z.to_nat (Dimensions build).



End Levels.

(** *** Local spacing near and within a shape *)

Section LocalSpacing.

Variable this : ParticleRefinementByShape.
Hypothesis spacing_ref_pos : 0 < spacing_ref_ this.

Let K : Kernel := kernel_ptr_ this.
Let distance_to_shape : Vecd -> Real := findSignedDistance (target_shape_ this).

Lemma smoothedSpacing_at_zero (t : Real) :
  0 < t -> falloff_kernel K -> smoothedSpacing this 0 t = spacing_min_ this.
Proof.
  intros Ht (Hsize & Hw0 & _ & _).
  rewrite (smoothedSpacing_inside this t).
  - replace (0 / (2 * t)) with 0 by (unfold Rdiv; ring). field. exact Hw0.
  - replace (0 / (2 * t)) with 0 by (unfold Rdiv; ring). exact Hsize.
Qed.

Lemma smoothedSpacing_between (m t : Real) :
  0 <= m -> 0 < t ->
  bounded_profile K ->
  spacing_min_ this <= spacing_ref_ this ->
  spacing_min_ this <= smoothedSpacing this m t <= spacing_ref_ this.
Proof.
  intros Hm Ht [Hw0 Hprofile] Hmin.
  destruct (Rlt_dec (m / (2 * t)) (KernelSize K)) as [Hin|Hout].
  - rewrite (smoothedSpacing_inside this t m Hin).
    assert (Hq : 0 <= m / (2 * t)).
    { apply Rmult_le_pos; [exact Hm | apply Rlt_le, Rinv_0_lt_compat; lra]. }
    destruct (Hprofile (m / (2 * t)) (conj Hq Hin)) as [Hlow Hhigh].
    fold K. set (w := W_1D K (m / (2 * t)) / W_1D K 0).
    assert (Hw : 0 <= w <= 1).
    { unfold w. split.
      - apply Rmult_le_pos; [exact Hlow | apply Rlt_le, Rinv_0_lt_compat, Hw0].
      - apply Rmult_le_reg_r with (W_1D K 0); [exact Hw0|].
        unfold Rdiv. rewrite Rmult_assoc, Rinv_l by lra. lra. }
    nra.
  - rewrite (smoothedSpacing_outside this t m Hout). lra.
Qed.

(** The local spacing asked for by either shape-driven policy lies
    between the minimum and the reference spacing, wherever the position
    is. *)
Theorem getLocalSpacingByShape_between :
  bounded_profile K ->
  spacing_min_ this <= spacing_ref_ this ->
  forall position : Vecd,
    spacing_min_ this
      <= ParticleRefinementNearSurface_getLocalSpacingByShape this position
      <= spacing_ref_ this /\
    spacing_min_ this
      <= ParticleRefinementWithinShape_getLocalSpacingByShape this position
      <= spacing_ref_ this.
Proof.
  intros HK Hmin position. split.
  - unfold ParticleRefinementNearSurface_getLocalSpacingByShape.
    apply smoothedSpacing_between; try assumption. apply Rabs_pos.
  - unfold ParticleRefinementWithinShape_getLocalSpacingByShape.
    destruct (Rlt_dec (findSignedDistance (target_shape_ this) position) 0) as [Hin|Hout].
    + lra.
    + apply smoothedSpacing_between; try assumption. lra.
Qed.

(** Near a surface the spacing depends on the distance to the surface
    alone, not on the side; both policies give the minimum spacing on the
    surface, the within-shape policy also everywhere inside; outside the
    shape the two policies agree; from a distance of [2 spacingRef] kernel
    sizes on, the spacing is the reference spacing. *)
Theorem getLocalSpacingByShape_by_distance :
  falloff_kernel K ->
  (forall p1 p2 : Vecd,
     distance_to_shape p1 = - distance_to_shape p2 ->
     ParticleRefinementNearSurface_getLocalSpacingByShape this p1
     = ParticleRefinementNearSurface_getLocalSpacingByShape this p2) /\
  (forall position : Vecd,
     distance_to_shape position = 0 ->
     ParticleRefinementNearSurface_getLocalSpacingByShape this position = spacing_min_ this) /\
  (forall position : Vecd,
     distance_to_shape position <= 0 ->
     ParticleRefinementWithinShape_getLocalSpacingByShape this position = spacing_min_ this) /\
  (forall position : Vecd,
     0 <= distance_to_shape position ->
     ParticleRefinementWithinShape_getLocalSpacingByShape this position
     = ParticleRefinementNearSurface_getLocalSpacingByShape this position) /\
  (forall position : Vecd,
     2 * spacing_ref_ this * KernelSize K <= Rabs (distance_to_shape position) ->
     ParticleRefinementNearSurface_getLocalSpacingByShape this position = spacing_ref_ this).
Proof.
  intros HK.
  unfold ParticleRefinementNearSurface_getLocalSpacingByShape,
    ParticleRefinementWithinShape_getLocalSpacingByShape.
  fold distance_to_shape.
  split; [|split; [|split; [|split]]].
  - intros p1 p2 Hopp. now rewrite Hopp, Rabs_Ropp.
  - intros position Hd. rewrite Hd, Rabs_R0.
    apply smoothedSpacing_at_zero; assumption.
  - intros position Hd.
    destruct (Rlt_dec (distance_to_shape position) 0) as [_|Hn]; [reflexivity|].
    replace (distance_to_shape position) with 0 by lra.
    apply smoothedSpacing_at_zero; assumption.
  - intros position Hd.
    destruct (Rlt_dec (distance_to_shape position) 0) as [Hneg|_]; [lra|].
    now rewrite Rabs_pos_eq.
  - intros position Hfar. apply smoothedSpacing_outside.
    rewrite (ratio_below_kernel_size this (spacing_ref_ this) spacing_ref_pos).
    fold K. lra.
Qed.

End LocalSpacing.

(** *** The levels estimated for a level set *)

Lemma pow_two_le_of_log10 (q : Real) (k : Z) :
  1 <= q -> (0 <= k)%Z -> IZR k <= log10 q -> 2 ^ Z.to_nat k <= q.
Proof.
  intros Hq Hk Hlog.
  pose proof ln_two_pos as H2. pose proof ln_ten_pos as H10.
  assert (Hlnq : 0 <= ln q) by (rewrite <- ln_1; apply ln_le_compat; lra).
  rewrite <- (Rpower_pow _ 2) by lra.
  rewrite INR_IZR_INZ, Z2Nat.id by exact Hk.
  apply Rle_trans with (Rpower 2 (log10 q)); [apply Rle_Rpower; lra|].
  unfold Rpower, log10.
  rewrite <- (exp_ln q) at 2 by lra.
  assert (Hexp : ln q / ln 10 * ln 2 <= ln q).
  { assert (Hle : ln 2 <= ln 10) by (apply ln_le_compat; lra).
    apply Rmult_le_reg_r with (ln 10); [exact H10|].
    replace (ln q / ln 10 * ln 2 * ln 10) with (ln q * ln 2) by (field; lra).
    nra. }
  destruct Hexp as [Hlt | ->]; [apply Rlt_le, exp_increasing, Hlt | lra].
Qed.

(** For a shape at least one spacing wide (and less than [10^300]
    spacings), [createLevelSet] plans at least two levels, and a coarsest
    spacing of [2^(levels - 1)] reference spacings that is at least twice
    the reference spacing and at most twice the smallest dimension of the
    shape. *)
Theorem createLevelSet_levels (this : SPHAdaptation) (minimum_dimension : Real) :
  0 < spacing_ref_ this <= minimum_dimension ->
  minimum_dimension / spacing_ref_ this <= 10 ^ 300 ->
  let total_levels := createLevelSet_total_levels this minimum_dimension in
  let coarsest_spacing := createLevelSet_coarsest_spacing this minimum_dimension in
  (2 <= total_levels <= 302)%Z /\
  coarsest_spacing = spacing_ref_ this * 2 ^ Z.to_nat (total_levels - 1) /\
  2 * spacing_ref_ this <= coarsest_spacing <= 2 * minimum_dimension.
Proof.
  intros [Hs Hdim] Hbig total_levels coarsest_spacing.
  set (q := minimum_dimension / spacing_ref_ this) in *.
  pose proof ln_ten_pos as H10.
  assert (Hq : 1 <= q).
  { unfold q. apply Rmult_le_reg_r with (spacing_ref_ this); [exact Hs|].
    unfold Rdiv. rewrite Rmult_assoc, Rinv_l by lra. lra. }
  assert (Hlog0 : 0 <= log10 q).
  { unfold log10. apply Rmult_le_pos; [|apply Rlt_le, Rinv_0_lt_compat, H10].
    rewrite <- ln_1. apply ln_le_compat. lra. }
  assert (Hlog300 : log10 q <= 300).
  { unfold log10. apply Rmult_le_reg_r with (ln 10); [exact H10|].
    unfold Rdiv. rewrite Rmult_assoc, Rinv_l by lra. rewrite Rmult_1_r.
    apply Rle_trans with (ln (10 ^ 300)); [apply ln_le_compat; lra|].
    rewrite ln_pow by lra. rewrite INR_IZR_INZ.
    replace (Z.of_nat 300) with 300%Z by reflexivity. lra. }
  set (k := int_cast (log10 q)).
  assert (Hk0 : (0 <= k)%Z) by (apply int_cast_nonneg; exact Hlog0).
  assert (Hkle : IZR k <= log10 q).
  { unfold k, int_cast. destruct (Rle_dec 0 (log10 q)); [|contradiction].
    apply base_Int_part. }
  assert (Hk300 : (k <= 300)%Z) by (apply le_IZR; lra).
  assert (Hlevels : total_levels = (k + 2)%Z).
  { unfold total_levels, createLevelSet_total_levels. fold q. fold k.
    unfold size_t_of_int. apply Z.mod_small. lia. }
  assert (Hcoarse : coarsest_spacing = spacing_ref_ this * 2 ^ Z.to_nat (k + 1)).
  { unfold coarsest_spacing, createLevelSet_coarsest_spacing. fold total_levels.
    rewrite Hlevels. replace (k + 2 - 1)%Z with (k + 1)%Z by lia.
    unfold int_of_size_t, powerN.
    rewrite (Z.mod_small (k + 1)) by lia.
    rewrite (Z.mod_small (k + 1 + 2 ^ 31)) by lia.
    do 3 f_equal. lia. }
  split; [lia|]. split.
  { rewrite Hcoarse, Hlevels. do 3 f_equal. lia. }
  rewrite Hcoarse. replace (Z.to_nat (k + 1)) with (S (Z.to_nat k)) by lia.
  simpl.
  assert (Hlow : 1 <= 2 ^ Z.to_nat k) by (apply pow_R1_Rle; lra).
  pose proof (pow_two_le_of_log10 q k Hq Hk0 Hkle) as Hhigh.
  assert (Hdimq : minimum_dimension = spacing_ref_ this * q).
  { unfold q. field. lra. }
  split; [nra|]. rewrite Hdimq. nra.
Qed.

(** *** Placing the children of a split *)

Lemma norm_half_spacing (s delta : Real) :
  sqrt (5 / 10 * s * cos delta * (5 / 10 * s * cos delta)
        + 5 / 10 * s * sin delta * (5 / 10 * s * sin delta))
  = Rabs s / 2.
Proof.
  pose proof (sin2_cos2 delta) as Hone. unfold Rsqr in Hone.
  replace (5 / 10 * s * cos delta * (5 / 10 * s * cos delta)
           + 5 / 10 * s * sin delta * (5 / 10 * s * sin delta))
    with (Rsqr (s / 2) * (sin delta * sin delta + cos delta * cos delta))
    by (unfold Rsqr; field).
  rewrite Hone, Rmult_1_r, sqrt_Rsqr_abs.
  unfold Rdiv. rewrite Rabs_mult, (Rabs_pos_eq (/ 2)) by lra. reflexivity.
Qed.

(** A child is placed at half the spacing from the parent, in the plane of
    the first two coordinates; the children of the angles [delta] and
    [delta + PI] lie opposite each other, the parent half-way between
    them. *)
Theorem splittingPattern_places_children (s delta : Real) :
  (forall x y : Real,
     exists cx cy : Real,
       splittingPattern (Vec2d x y) s delta = Vec2d cx cy /\
       norm (Vec2d (cx - x) (cy - y)) = Rabs s / 2 /\
       splittingPattern (Vec2d x y) s (delta + PI) = Vec2d (2 * x - cx) (2 * y - cy)) /\
  (forall x y z : Real,
     exists cx cy : Real,
       splittingPattern (Vec3d x y z) s delta = Vec3d cx cy z /\
       norm (Vec3d (cx - x) (cy - y) (z - z)) = Rabs s / 2 /\
       splittingPattern (Vec3d x y z) s (delta + PI) = Vec3d (2 * x - cx) (2 * y - cy) z).
Proof.
  split.
  - intros x y. do 2 eexists. split; [reflexivity|]. split.
    + simpl.
      replace (x + 5 / 10 * s * cos delta - x) with (5 / 10 * s * cos delta) by ring.
      replace (y + 5 / 10 * s * sin delta - y) with (5 / 10 * s * sin delta) by ring.
      apply norm_half_spacing.
    + simpl. rewrite neg_cos, neg_sin. f_equal; ring.
  - intros x y z. do 2 eexists. split; [reflexivity|]. split.
    + simpl.
      replace (x + 5 / 10 * s * cos delta - x) with (5 / 10 * s * cos delta) by ring.
      replace (y + 5 / 10 * s * sin delta - y) with (5 / 10 * s * sin delta) by ring.
      replace ((z - z) * (z - z)) with 0 by ring. rewrite Rplus_0_r.
      apply norm_half_spacing.
    + simpl. rewrite neg_cos, neg_sin. f_equal; ring.
Qed.

(** *** Instances of the further properties *)

Lemma wendland_kernel_bounded_profile (h : Real) : bounded_profile (wendland_kernel h).
Proof.
  unfold bounded_profile. simpl. rewrite wendland_W_1D_0. split; [lra|].
  intros q [Hq0 Hq2]. split; [apply wendland_W_1D_nonneg, Hq0|].
  unfold wendland_W_1D. set (u := 1 - q / 2).
  assert (Hu : 0 <= u <= 1) by (unfold u; lra).
  replace (1 + 2 * q) with (5 - 4 * u) by (unfold u; field).
  assert (Hfactor : 1 - u ^ 4 * (5 - 4 * u)
                    = (1 - u) ^ 2 * (1 + 2 * u + 3 * u ^ 2 + 4 * u ^ 3)) by ring.
  assert (H1 : 0 <= (1 - u) ^ 2) by apply pow2_ge_0.
  assert (H2 : 0 <= 1 + 2 * u + 3 * u ^ 2 + 4 * u ^ 3).
  { assert (0 <= u ^ 2) by apply pow2_ge_0.
    assert (0 <= u ^ 3) by (apply pow_le; lra). lra. }
  pose proof (Rmult_le_pos _ _ H1 H2). lra.
Qed.

Lemma sample_policy_sigma0_pos :
  0 < sigma0_ref_ (SPHAdaptation_new for_2D_build wendland_kernel (1 / 10) (13 / 10) 1).
Proof.
  unfold SPHAdaptation_new. cbn [sigma0_ref_].
  apply computeReferenceNumberDensity_pos; [apply wendland_kernel_positive|]; lra.
Qed.

Lemma ReferenceNumberDensity_scaling_witness :
  let this := SPHAdaptation_new for_2D_build wendland_kernel (1 / 10) (13 / 10) 1 in
  ReferenceNumberDensity for_2D_build this 1 = sigma0_ref_ this /\
  ReferenceNumberDensity for_2D_build this (2 * 1)
  = 2 ^ 2 * ReferenceNumberDensity for_2D_build this 1.
Proof.
  intros this.
  destruct (ReferenceNumberDensity_scaling for_2D_build this sample_policy_sigma0_pos)
    as (H1 & Hscale & _).
  split; [exact H1 | apply (Hscale 2 1)].
Defined.

Lemma resetAdaptationRatios_composes_witness :
  let this := SPHAdaptation_new for_2D_build wendland_kernel (1 / 10) (13 / 10) 1 in
  resetAdaptationRatios for_2D_build wendland_kernel IsSPHAdaptation
    (resetAdaptationRatios for_2D_build wendland_kernel IsSPHAdaptation this (11 / 10) 2)
    (13 / 10) 4
  = resetAdaptationRatios for_2D_build wendland_kernel IsSPHAdaptation this (13 / 10) 4.
Proof.
  intros this.
  apply (resetAdaptationRatios_composes for_2D_build wendland_kernel IsSPHAdaptation this
           (11 / 10) 2 (13 / 10) 4); lra.
Defined.

Lemma split_merge_volume_ratio_witness :
  let this := ParticleSplitAndMerge_new for_3D_build wendland_kernel
                (sample_body (1 / 10)) (13 / 10) 1 2 in
  maximum_volume_ this = powerN 2 2 * minimum_volume_ this.
Proof.
  intros this.
  apply (split_merge_volume_ratio for_3D_build wendland_kernel this).
  apply constructed_new.
Defined.

Lemma sample_policy_minimum_volume :
  minimum_volume_ (ParticleSplitAndMerge_new for_2D_build wendland_kernel
                     (sample_body (5 / 100)) (13 / 10) 1 0) = 25 / 10000.
Proof.
  cbn. unfold ParticleSplitAndMerge_MostRefinedSpacing.
  rewrite powerN_0. unfold pow. rewrite Rpower_one_base. unfold powerN. simpl. field.
Qed.

Lemma split_and_merge_exclude_each_other_witness :
  let this := ParticleSplitAndMerge_new for_2D_build wendland_kernel
                (sample_body (5 / 100)) (13 / 10) 1 0 in
  let Eps := 1 / 1000000 in
  ~ (isSplitAllowed Eps this (3 / 1000) = true /\
     mergeResolutionCheck for_2D_build Eps this (3 / 1000) = true).
Proof.
  intros this Eps.
  destruct (split_and_merge_exclude_each_other for_2D_build wendland_kernel Eps this)
    as [Hnever _].
  - apply constructed_new.
  - unfold Eps. lra.
  - unfold this, Eps. rewrite sample_policy_minimum_volume. lra.
  - apply Hnever.
Defined.


Lemma sample_shape_policy_spacing :
  let this := ParticleRefinementByShape_new for_2D_build wendland_kernel
                (sample_body (1 / 10)) unit_ball (13 / 10) 1 1 in
  spacing_ref_ this = 1 / 10 /\ spacing_min_ this = 1 / 20.
Proof. cbn. unfold SPHAdaptation_MostRefinedSpacing, powerN. simpl. split; field. Qed.

(** C7 (witness): a policy refined by a shape, of level 1 on a body of
    resolution [0.1], with the sample kernel and a thickness of [0.1].  Its
    spacings are [0.05] and [0.1]; the smoothed spacing is [0.05] at
    measure [0], the blend [3/16 * 0.05 + 13/16 * 0.1] at measure [0.2],
    where the ratio is [1], and [0.1] from the boundary [0.4] on, where it
    is continuous. *)
Lemma smoothedSpacing_blend_witness :
  let this := ParticleRefinementByShape_new for_2D_build wendland_kernel
                (sample_body (1 / 10)) unit_ball (13 / 10) 1 1 in
  spacing_min_ this = 1 / 20 /\
  spacing_ref_ this = 1 / 10 /\
  smoothedSpacing this 0 (1 / 10) = 1 / 20 /\
  smoothedSpacing this (2 / 10) (1 / 10) = 29 / 320 /\
  (forall m, 2 * (1 / 10) * 2 <= m -> smoothedSpacing this m (1 / 10) = 1 / 10) /\
  continuity_pt (fun m => smoothedSpacing this m (1 / 10)) (2 * (1 / 10) * 2).
Proof.
  intros this. destruct sample_shape_policy_spacing as [Href Hmin].
  fold this in Href, Hmin.
  assert (Ht : 0 < 1 / 10) by lra.
  destruct (smoothedSpacing_blend this (1 / 10) Ht) as (Hblend & H0 & Hfar & Hcont).
  - apply wendland_kernel_falloff.
  - split; [exact Hmin|]. split; [exact Href|].
    split; [rewrite H0; exact Hmin|].
    split.
    + assert (Hm : 0 <= 2 / 10) by lra.
      destruct (Hblend (2 / 10) Hm) as [Hinside _].
      assert (Hratio : 2 / 10 / (2 * (1 / 10)) = 1) by field.
      rewrite Hinside.
      * rewrite Hratio, Hmin, Href.
        change (W_1D (kernel_ptr_ this)) with wendland_W_1D.
        unfold wendland_W_1D. field.
      * rewrite Hratio. change (KernelSize (kernel_ptr_ this)) with 2. lra.
    + split; [|exact Hcont].
      intros m Hm. rewrite (Hfar m Hm). exact Href.
Defined.

Lemma getLocalSpacingByShape_between_witness :
  let this := ParticleRefinementByShape_new for_2D_build wendland_kernel
                (sample_body (1 / 10)) unit_ball (13 / 10) 1 1 in
  spacing_min_ this
    <= ParticleRefinementNearSurface_getLocalSpacingByShape this (Vec2d 1 1)
    <= spacing_ref_ this.
Proof.
  intros this. destruct sample_shape_policy_spacing as [Href Hmin].
  fold this in Href, Hmin.
  apply (getLocalSpacingByShape_between this).
  - rewrite Href. lra.
  - apply wendland_kernel_bounded_profile.
  - rewrite Href, Hmin. lra.
Defined.

Lemma getLocalSpacingByShape_by_distance_witness :
  let this := ParticleRefinementByShape_new for_2D_build wendland_kernel
                (sample_body (1 / 10)) unit_ball (13 / 10) 1 1 in
  ParticleRefinementWithinShape_getLocalSpacingByShape this (Vec2d 0 0) = spacing_min_ this.
Proof.
  intros this. destruct sample_shape_policy_spacing as [Href _]. fold this in Href.
  assert (Hpos : 0 < spacing_ref_ this) by (rewrite Href; lra).
  destruct (getLocalSpacingByShape_by_distance this Hpos) as (_ & _ & Hinside & _).
  - apply wendland_kernel_falloff.
  - apply Hinside.
    change (norm (Vecd_zero for_2D_build) - 1 <= 0). rewrite norm_Vecd_zero. lra.
Defined.

Lemma createLevelSet_levels_witness :
  let this := SPHAdaptation_new for_2D_build wendland_kernel (1 / 10) (13 / 10) 1 in
  (2 <= createLevelSet_total_levels this 1 <= 302)%Z /\
  2 * spacing_ref_ this <= createLevelSet_coarsest_spacing this 1 <= 2 * 1.
Proof.
  intros this.
  assert (Href : spacing_ref_ this = 1 / 10) by (unfold this; cbn; field).
  destruct (createLevelSet_levels this 1) as (Hlevels & _ & Hcoarse).
  - rewrite Href. lra.
  - rewrite Href. replace (1 / (1 / 10)) with (10 ^ 1) by field.
    apply Rle_pow; [lra | lia].
  - split; assumption.
Defined.

End AdaptationFacts.

(** ** The lattice sum in the arithmetic of [double] *)

Module RoundedFacts.
Import DataType Rounded.

Section LoopsAsSums.

Variable A : Arithmetic.
Variable K : Kernel A.

Lemma rounded_inside_weights_app (l1 l2 : list (Vecd (double A))) :
  inside_weights A K (l1 ++ l2) = inside_weights A K l1 ++ inside_weights A K l2.
Proof. unfold inside_weights. now rewrite List.filter_app, List.map_app. Qed.

(** The innermost loop adds the weights of the offsets of one row to the
    sum, from the first to the last. *)
Lemma add_row (mk : Z -> Vecd (double A)) (first last : Z) (acc : double A) :
  for_int first last (fun i sigma =>
    if less A (norm A (mk i)) (CutOffRadius K)
    then plus A sigma (W K (norm A (mk i)) (mk i))
    else sigma) acc
  = List.fold_left (plus A)
      (inside_weights A K (List.map mk (int_range first last))) acc.
Proof.
  unfold for_int. generalize (int_range first last) as l. intros l. revert acc.
  induction l as [|i l IH]; intros acc; [reflexivity|].
  cbn [List.fold_left List.map]. rewrite IH. unfold inside_weights.
  cbn [List.filter]. destruct (less A (norm A (mk i)) (CutOffRadius K)); reflexivity.
Qed.

(** An outer loop whose body adds the weights of [row j] adds the weights
    of the rows one after the other. *)
Lemma add_rows (row : Z -> list (Vecd (double A)))
    (body : Z -> double A -> double A) (first last : Z) (acc : double A) :
  (forall j a, body j a = List.fold_left (plus A) (inside_weights A K (row j)) a) ->
  for_int first last body acc
  = List.fold_left (plus A)
      (inside_weights A K (List.flat_map row (int_range first last))) acc.
Proof.
  intros Hbody. unfold for_int.
  generalize (int_range first last) as l. intros l. revert acc.
  induction l as [|j l IH]; intros acc; [reflexivity|].
  cbn [List.fold_left List.flat_map].
  rewrite IH, Hbody, rounded_inside_weights_app, List.fold_left_app. reflexivity.
Qed.

Lemma search_depth_defined (c s : double A) (n : Z) :
  int_of_Real A (divide A c s) = Some n -> (n + 1 < INT_MAX)%Z ->
  search_depth A c s = Some (n + 1)%Z.
Proof.
  intros Hn Hmax. unfold search_depth. rewrite Hn.
  destruct (decide (n + 1 < INT_MAX)%Z); [reflexivity | contradiction].
Qed.

(** Where the search depth is defined, the loops return the weights of the
    offsets inside the cut-off radius, added in the order of the loops. *)
Lemma computeReferenceNumberDensity_in_loop_order
    (s : double A) (zero : Vecd (double A)) (depth : Z) :
  search_depth A (CutOffRadius K) s = Some depth ->
  computeReferenceNumberDensity A K s zero
  = Some (sum_in_order A (inside_weights A K (lattice_offsets A zero depth s))).
Proof.
  intros Hdepth. unfold computeReferenceNumberDensity. cbv zeta. rewrite Hdepth.
  f_equal. unfold sum_in_order, lattice_offsets.
  destruct zero as [x y|x y z].
  - apply (add_rows
             (fun j => List.map (fun i => Vec2d (times A (Real_of_int A i) s)
                                                (times A (Real_of_int A j) s))
                         (int_range (- depth) depth))).
    intros j a.
    apply (add_row (fun i => Vec2d (times A (Real_of_int A i) s)
                                  (times A (Real_of_int A j) s))).
  - apply (add_rows
             (fun k => List.flat_map (fun j =>
                         List.map (fun i => Vec3d (times A (Real_of_int A i) s)
                                                  (times A (Real_of_int A j) s)
                                                  (times A (Real_of_int A k) s))
                           (int_range (- depth) depth))
                         (int_range (- depth) depth))).
    intros k a.
    apply (add_rows
             (fun j => List.map (fun i => Vec3d (times A (Real_of_int A i) s)
                                                (times A (Real_of_int A j) s)
                                                (times A (Real_of_int A k) s))
                         (int_range (- depth) depth))).
    intros j a'.
    apply (add_row (fun i => Vec3d (times A (Real_of_int A i) s)
                                  (times A (Real_of_int A j) s)
                                  (times A (Real_of_int A k) s))).
Qed.

(** Where it is not, because of the conversion or of the counters, the
    function has no defined result. *)
Lemma computeReferenceNumberDensity_undefined (s : double A) (zero : Vecd (double A)) :
  (int_of_Real A (divide A (CutOffRadius K) s) = None \/
   exists n, int_of_Real A (divide A (CutOffRadius K) s) = Some n /\ (INT_MAX <= n + 1)%Z) ->
  computeReferenceNumberDensity A K s zero = None.
Proof.
  intros H. unfold computeReferenceNumberDensity, search_depth. cbv zeta.
  destruct H as [-> | (n & -> & Hn)]; [reflexivity|].
  destruct (decide (n + 1 < INT_MAX)%Z); [lia | reflexivity].
Qed.

Lemma In_rounded_offsets_2d (x y : double A) (depth : Z) (s : double A)
    (v : Vecd (double A)) :
  In v (lattice_offsets A (Vec2d x y) depth s) <->
  exists i j : Z, (- depth <= i <= depth)%Z /\ (- depth <= j <= depth)%Z /\
                  v = Vec2d (times A (Real_of_int A i) s) (times A (Real_of_int A j) s).
Proof.
  unfold lattice_offsets. rewrite List.in_flat_map. split.
  - intros (j & Hj & Hv). apply List.in_map_iff in Hv. destruct Hv as (i & <- & Hi).
    exists i, j. rewrite AdaptationFacts.In_int_range in Hi, Hj. auto.
  - intros (i & j & Hi & Hj & ->). exists j. rewrite AdaptationFacts.In_int_range.
    split; [exact Hj|].
    apply List.in_map_iff. exists i. rewrite AdaptationFacts.In_int_range. auto.
Qed.

Lemma In_rounded_offsets_3d (x y z : double A) (depth : Z) (s : double A)
    (v : Vecd (double A)) :
  In v (lattice_offsets A (Vec3d x y z) depth s) <->
  exists i j k : Z, (- depth <= i <= depth)%Z /\ (- depth <= j <= depth)%Z /\
                    (- depth <= k <= depth)%Z /\
                    v = Vec3d (times A (Real_of_int A i) s) (times A (Real_of_int A j) s)
                              (times A (Real_of_int A k) s).
Proof.
  unfold lattice_offsets. rewrite List.in_flat_map. split.
  - intros (k & Hk & Hv). apply List.in_flat_map in Hv. destruct Hv as (j & Hj & Hv).
    apply List.in_map_iff in Hv. destruct Hv as (i & <- & Hi).
    exists i, j, k. rewrite AdaptationFacts.In_int_range in Hi, Hj, Hk. auto.
  - intros (i & j & k & Hi & Hj & Hk & ->). exists k.
    rewrite AdaptationFacts.In_int_range. split; [exact Hk|].
    apply List.in_flat_map. exists j. rewrite AdaptationFacts.In_int_range.
    split; [exact Hj|].
    apply List.in_map_iff. exists i. rewrite AdaptationFacts.In_int_range. auto.
Qed.

Lemma In_rounded_inside_weights (offsets : list (Vecd (double A))) (w : double A) :
  In w (inside_weights A K offsets) <->
  exists v, In v offsets /\ less A (norm A v) (CutOffRadius K) = true /\
            w = W K (norm A v) v.
Proof.
  unfold inside_weights. rewrite List.in_map_iff. split.
  - intros (v & <- & Hv). apply List.filter_In in Hv. destruct Hv as [Hin Hlt].
    exists v. auto.
  - intros (v & Hin & Hlt & ->). exists v. split; [reflexivity|].
    apply List.filter_In. auto.
Qed.

Lemma length_int_range (first last : Z) :
  length (int_range first last) = Z.to_nat (last - first + 1).
Proof. unfold int_range. now rewrite List.length_map, List.length_seq. Qed.

Lemma length_flat_map_rows {X Y : Type} (row : X -> list Y) (l : list X) (n : nat) :
  (forall x, length (row x) = n) -> length (List.flat_map row l) = (length l * n)%nat.
Proof.
  intros Hrow. induction l as [|x l IH]; [reflexivity|].
  cbn [List.flat_map]. rewrite List.length_app, Hrow, IH. reflexivity.
Qed.

(** Every tuple of indices is visited once: the lattice has as many offsets
    as there are tuples. *)
Lemma length_rounded_offsets (zero : Vecd (double A)) (depth : Z) (s : double A) :
  let side := Z.to_nat (2 * depth + 1) in
  length (lattice_offsets A zero depth s)
  = match zero with
    | Vec2d _ _ => (side * side)%nat
    | Vec3d _ _ _ => (side * (side * side))%nat
    end.
Proof.
  intros side.
  assert (Hside : length (int_range (- depth) depth) = side).
  { rewrite length_int_range. unfold side. f_equal. lia. }
  destruct zero as [x y|x y z]; unfold lattice_offsets.
  - rewrite (length_flat_map_rows _ _ side), Hside; [reflexivity|].
    intros j. now rewrite List.length_map.
  - rewrite (length_flat_map_rows _ _ (side * side)), Hside; [reflexivity|].
    intros k. rewrite (length_flat_map_rows _ _ side), Hside; [reflexivity|].
    intros j. now rewrite List.length_map.
Qed.

(** C6.  For every arithmetic of the doubles, kernel with cut-off radius
    [c] and spacing [s] for which [int(c / s)] is defined, with value [n],
    and [n + 1] is below [INT_MAX]: both overloads of
    [computeReferenceNumberDensity] return the weights [W(|v|, v)] of the
    offsets [v = (i s, j s)], or [(i s, j s, k s)], with every index
    ranging over [-(n + 1) .. n + 1], each tuple of indices once, for which
    the test [|v| < c] succeeds, added to zero one after the other in the
    order of the loops. *)
Theorem computeReferenceNumberDensity_sums_lattice (s : double A) (n : Z) :
  int_of_Real A (divide A (CutOffRadius K) s) = Some n ->
  (n + 1 < INT_MAX)%Z ->
  let c := CutOffRadius K in
  let depth := (n + 1)%Z in
  let side := Z.to_nat (2 * depth + 1) in
  (forall x y,
     computeReferenceNumberDensity A K s (Vec2d x y)
     = Some (sum_in_order A (inside_weights A K (lattice_offsets A (Vec2d x y) depth s)))) /\
  (forall x y z,
     computeReferenceNumberDensity A K s (Vec3d x y z)
     = Some (sum_in_order A (inside_weights A K (lattice_offsets A (Vec3d x y z) depth s)))) /\
  (forall x y v,
     In v (lattice_offsets A (Vec2d x y) depth s) <->
     exists i j : Z, (- depth <= i <= depth)%Z /\ (- depth <= j <= depth)%Z /\
                     v = Vec2d (times A (Real_of_int A i) s)
                               (times A (Real_of_int A j) s)) /\
  (forall x y z v,
     In v (lattice_offsets A (Vec3d x y z) depth s) <->
     exists i j k : Z, (- depth <= i <= depth)%Z /\ (- depth <= j <= depth)%Z /\
                       (- depth <= k <= depth)%Z /\
                       v = Vec3d (times A (Real_of_int A i) s)
                                 (times A (Real_of_int A j) s)
                                 (times A (Real_of_int A k) s)) /\
  (forall x y, length (lattice_offsets A (Vec2d x y) depth s) = (side * side)%nat) /\
  (forall x y z,
     length (lattice_offsets A (Vec3d x y z) depth s) = (side * (side * side))%nat) /\
  (forall offsets w,
     In w (inside_weights A K offsets) <->
     exists v, In v offsets /\ less A (norm A v) c = true /\ w = W K (norm A v) v) /\
  sum_in_order A [] = Real_of_int A 0 /\
  (forall weights w,
     sum_in_order A (weights ++ [w]) = plus A (sum_in_order A weights) w).
Proof.
  intros Hn Hmax c depth side.
  pose proof (search_depth_defined c s n Hn Hmax) as Hdepth.
  split; [intros x y; apply computeReferenceNumberDensity_in_loop_order, Hdepth|].
  split; [intros x y z; apply computeReferenceNumberDensity_in_loop_order, Hdepth|].
  split; [intros x y v; apply In_rounded_offsets_2d|].
  split; [intros x y z v; apply In_rounded_offsets_3d|].
  split; [intros x y; apply (length_rounded_offsets (Vec2d x y))|].
  split; [intros x y z; apply (length_rounded_offsets (Vec3d x y z))|].
  split; [intros offsets w; apply In_rounded_inside_weights|].
  split; [reflexivity|].
  intros weights w. unfold sum_in_order. now rewrite List.fold_left_app.
Qed.

End LoopsAsSums.

(** *** In exact arithmetic *)

Lemma for_int_ext {X : Type} (first last : Z) (f g : Z -> X -> X) (acc : X) :
  (forall i a, f i a = g i a) -> for_int first last f acc = for_int first last g acc.
Proof.
  intros Hfg. unfold for_int. generalize (int_range first last) as l. intros l.
  revert acc. induction l as [|i l IH]; intros acc; [reflexivity|].
  cbn [List.fold_left]. rewrite Hfg. apply IH.
Qed.

Lemma int_cast_below (x : R) (bound : Z) :
  (x < IZR bound)%R -> (0 < bound)%Z -> (int_cast x < bound)%Z.
Proof.
  intros Hx Hbound. unfold int_cast. destruct (Rle_dec 0 x) as [H0|H0].
  - destruct (base_Int_part x) as [Hle _]. apply lt_IZR. lra.
  - assert (Hneg : (0 <= - x)%R) by lra.
    pose proof (DataTypeFacts.int_cast_nonneg (- x) Hneg) as Hcast.
    unfold int_cast in Hcast. destruct (Rle_dec 0 (- x)); [lia | contradiction].
Qed.

(** At the real numbers the test is the strict order, and the conversion
    is defined where the truncation is an [int]. *)
Lemma exact_less_strict (x y : R) : less exact x y = true <-> (x < y)%R.
Proof.
  cbn. unfold Rltb. destruct (Rlt_dec x y); split; intros H;
    first [assumption | reflexivity | discriminate | contradiction].
Qed.

Lemma exact_int_of_Real_defined (x : R) :
  (- 2 ^ 31 - 1 < x < 2 ^ 31)%R <-> int_of_Real exact x = Some (int_cast x).
Proof.
  cbn. unfold exact_int_of_Real.
  destruct (Rlt_dec (- 2 ^ 31 - 1) x); [destruct (Rlt_dec x (2 ^ 31))|];
    split; intros H; first [reflexivity | discriminate | lra].
Qed.

(** With a spacing other than zero and a quotient within the range of
    [int], the function of module [Adaptation] is this one at the
    arithmetic of the real numbers. *)
Lemma computeReferenceNumberDensity_exact (K : Kernels.Kernel) (s : R) (zero : Vecd R) :
  Adaptation.search_depth_in_range (Kernels.CutOffRadius K) s ->
  computeReferenceNumberDensity exact (exact_kernel K) s zero
  = Some (Adaptation.computeReferenceNumberDensity K s (to_Vecd zero)).
Proof.
  intros [_ [Hlow Hhigh]].
  assert (Hdepth : search_depth exact (Kernels.CutOffRadius K) s
                   = Some (int_cast (Kernels.CutOffRadius K / s)%R + 1)%Z).
  { apply search_depth_defined.
    - cbn. unfold exact_int_of_Real.
      destruct (Rlt_dec (- 2 ^ 31 - 1) (Kernels.CutOffRadius K / s)) as [_|Hn]; [|lra].
      destruct (Rlt_dec (Kernels.CutOffRadius K / s) (2 ^ 31)) as [_|Hn]; [reflexivity|lra].
    - assert (int_cast (Kernels.CutOffRadius K / s)%R < 2 ^ 31 - 2)%Z; [|unfold INT_MAX; lia].
      apply int_cast_below; [|lia].
      replace (2 ^ 31 - 2)%Z with 2147483646%Z by reflexivity. lra. }
  unfold computeReferenceNumberDensity, Adaptation.computeReferenceNumberDensity.
  cbv zeta. change (CutOffRadius (exact_kernel K)) with (Kernels.CutOffRadius K).
  rewrite Hdepth. f_equal.
  destruct zero as [x y|x y z]; cbn [to_Vecd].
  - apply for_int_ext. intros j a. apply for_int_ext. intros i a'. cbn.
    unfold Rltb. destruct (Rlt_dec _ _); reflexivity.
  - apply for_int_ext. intros k a. apply for_int_ext. intros j a'.
    apply for_int_ext. intros i a''. cbn.
    unfold Rltb. destruct (Rlt_dec _ _); reflexivity.
Qed.

(** *** In the arithmetic of IEEE 754 doubles *)

(** C6 (witness): doubles, spacing [0.35], smoothing length
    [2.5 * 0.35], cut-off radius twice as much: [int] of the quotient is
    [5] and the search depth [6]. *)
Lemma computeReferenceNumberDensity_sums_lattice_witness :
  let s := binary64_ratio 35 100 in
  let K := binary64_wendland_kernel (PrimFloat.mul (binary64_ratio 25 10) s) in
  let zero := Vec2d (binary64_of_int 0) (binary64_of_int 0) in
  computeReferenceNumberDensity binary64 K s zero
  = Some (sum_in_order binary64 (inside_weights binary64 K (lattice_offsets binary64 zero 6 s))).
Proof.
  intros s K zero.
  destruct (computeReferenceNumberDensity_sums_lattice binary64 K s 5) as [Hsum _].
  - vm_compute. reflexivity.
  - reflexivity.
  - apply Hsum.
Defined.

(** At this input 77 of the 169 offsets pass the test [|v| < c] in
    doubles. *)
Lemma binary64_offsets_inside :
  let s := binary64_ratio 35 100 in
  let K := binary64_wendland_kernel (PrimFloat.mul (binary64_ratio 25 10) s) in
  let zero := Vec2d (binary64_of_int 0) (binary64_of_int 0) in
  length (lattice_offsets binary64 zero 6 s) = 169%nat /\
  length (inside_weights binary64 K (lattice_offsets binary64 zero 6 s)) = 77%nat.
Proof. vm_compute. split; reflexivity. Qed.

(** The conversion to [int] in doubles truncates towards zero and is
    undefined from [2^31] on and for an infinity; the test [<] is
    strict. *)
Lemma binary64_samples :
  binary64_to_int (binary64_ratio 26 10) = Some 2%Z /\
  binary64_to_int (binary64_ratio (-7) 2) = Some (-3)%Z /\
  binary64_to_int (binary64_of_int 2147483647) = Some 2147483647%Z /\
  binary64_to_int (binary64_of_int 4000000000) = None /\
  binary64_to_int (binary64_ratio 1 0) = None /\
  less binary64 (binary64_ratio 175 100) (binary64_ratio 175 100) = false /\
  less binary64 (binary64_ratio 174 100) (binary64_ratio 175 100) = true.
Proof. vm_compute. repeat split; reflexivity. Qed.

End RoundedFacts.

(** ** The neighbour relations *)

Module BodyRelationFacts.
Import DataType Bodies BodyRelation.

(** *** Loops that update one entry per index *)

Section UpdateEach.

Context {A : Type}.
Variable z : A -> A.
Variable ok : A -> Prop.
Variable step : nat -> list A -> option (list A).
Hypothesis z_idempotent : forall x, z (z x) = z x.
Hypothesis ok_z : forall x, ok x -> ok (z x).
Hypothesis step_updates :
  forall i l x, l !! i = Some x -> ok x -> step i l = Some (<[i := z x]> l).

Lemma for_each_updates (nums : list nat) (l : list A) :
  (forall i, i ∈ nums -> exists x, l !! i = Some x /\ ok x) ->
  for_each step nums l
  = Some (imap (fun i x => if decide (i ∈ nums) then z x else x) l).
Proof.
  revert l. induction nums as [|num rest IH]; intros l Hpre; simpl.
  - f_equal. apply list_eq. intros i. rewrite list_lookup_imap.
    destruct (l !! i); simpl; [|reflexivity].
    destruct (decide (i ∈ [])) as [Hin|_]; [|reflexivity].
    now apply elem_of_nil in Hin.
  - destruct (Hpre num) as (x & Hx & Hok); [apply elem_of_cons; auto|].
    rewrite (step_updates num l x Hx Hok).
    pose proof (lookup_lt_Some _ _ _ Hx) as Hlt.
    rewrite IH.
    + f_equal. apply list_eq. intros i. rewrite !list_lookup_imap.
      destruct (decide (i = num)) as [->|Hne].
      * rewrite list_lookup_insert_eq by exact Hlt. rewrite Hx. simpl.
        destruct (decide (num ∈ num :: rest)) as [_|Hn];
          [|exfalso; apply Hn, elem_of_cons; auto].
        destruct (decide (num ∈ rest)); [now rewrite z_idempotent | reflexivity].
      * rewrite list_lookup_insert_ne by auto.
        destruct (l !! i); simpl; [|reflexivity].
        destruct (decide (i ∈ rest)) as [Hr|Hr];
          destruct (decide (i ∈ num :: rest)) as [Hc|Hc]; try reflexivity.
        -- exfalso. apply Hc, elem_of_cons. auto.
        -- exfalso. apply elem_of_cons in Hc. destruct Hc; auto.
    + intros i Hi. destruct (decide (i = num)) as [->|Hne].
      * exists (z x). rewrite list_lookup_insert_eq by exact Hlt. auto.
      * rewrite list_lookup_insert_ne by auto. apply Hpre, elem_of_cons. auto.
Qed.

End UpdateEach.

Lemma for_each_app {S : Type} (body : nat -> S -> option S) (l1 l2 : list nat) (s : S) :
  for_each body (l1 ++ l2) s
  = match for_each body l1 s with
    | Some s' => for_each body l2 s'
    | None => None
    end.
Proof.
  revert s. induction l1 as [|i l1 IH]; intros s; simpl; [reflexivity|].
  destruct (body i s); [apply IH | reflexivity].
Qed.

(** Running the blocks one after the other visits the indices of the
    blocks in a row. *)
Lemma parallel_for_indices {S : Type} (body : nat -> S -> option S)
    (range : blocked_range) (ap : partitioner) (s : S) :
  parallel_for range (fun r => for_size_t (r_begin r) (r_end r) body) ap s
  = for_each body (ap range ≫= fun r => seq (r_begin r) (r_end r - r_begin r)) s.
Proof.
  unfold parallel_for. generalize (ap range) as blocks. intros blocks. revert s.
  induction blocks as [|r blocks IH]; intros s; simpl; [reflexivity|].
  rewrite for_each_app. unfold for_size_t at 1.
  destruct (for_each body (seq (r_begin r) (r_end r - r_begin r)) s);
    [apply IH | reflexivity].
Qed.

Lemma partitions_indices (ap : partitioner) (n i : nat) :
  partitions ap ->
  i ∈ (ap {| r_begin := 0; r_end := n |} ≫= fun r => seq (r_begin r) (r_end r - r_begin r))
  <-> i < n.
Proof.
  intros Hap. destruct (Hap {| r_begin := 0; r_end := n |}) as [_ Hcover];
    [simpl; lia|].
  rewrite list_elem_of_bind. simpl in Hcover. split.
  - intros (r & Hi & Hr). apply elem_of_seq in Hi.
    apply (proj1 (Hcover i)). exists r. split; [exact Hr | lia].
  - intros Hi. destruct (proj2 (Hcover i)) as (r & Hr & Hir); [lia|].
    exists r. split; [apply elem_of_seq; lia | exact Hr].
Qed.

(** *** Resetting the current sizes *)

Lemma with_current_size_idempotent (v : nat) (n : Neighborhood) :
  with_current_size v (with_current_size v n) = with_current_size v n.
Proof. reflexivity. Qed.

Lemma lookup_zero_first (n : nat) (configuration : ParticleConfiguration) (i : nat) :
  zero_first n configuration !! i
  = if decide (i < n) then with_current_size 0 <$> configuration !! i
    else configuration !! i.
Proof.
  unfold zero_first. rewrite list_lookup_imap.
  destruct (configuration !! i); simpl; destruct (decide (i < n)); reflexivity.
Qed.

Lemma length_zero_first (n : nat) (configuration : ParticleConfiguration) :
  length (zero_first n configuration) = length configuration.
Proof. apply length_imap. Qed.

Lemma zero_first_idempotent (n : nat) (configuration : ParticleConfiguration) :
  zero_first n (zero_first n configuration) = zero_first n configuration.
Proof.
  apply list_eq. intros i. rewrite !lookup_zero_first.
  destruct (decide (i < n)); [|reflexivity].
  destruct (configuration !! i); reflexivity.
Qed.

Lemma set_current_size_updates (i : nat) (l : ParticleConfiguration) (x : Neighborhood) :
  l !! i = Some x -> True -> set_current_size i 0 l = Some (<[i := with_current_size 0 x]> l).
Proof. intros Hx _. unfold set_current_size. now rewrite Hx. Qed.

(** A loop over indices inside the configuration zeroes exactly the
    entries it visits. *)
Lemma for_each_set_current_size (ap : partitioner) (n : nat)
    (configuration : ParticleConfiguration) :
  partitions ap ->
  n <= length configuration ->
  parallel_for {| r_begin := 0; r_end := n |}
    (fun r => for_size_t (r_begin r) (r_end r) (fun num => set_current_size num 0))
    ap configuration
  = Some (zero_first n configuration).
Proof.
  intros Hap Hn. rewrite parallel_for_indices.
  rewrite (for_each_updates (with_current_size 0) (fun _ => True)).
  - f_equal. unfold zero_first. apply imap_ext. intros i x _.
    destruct (decide (i < n)) as [Hi|Hi];
      destruct (decide (i ∈ _)) as [Hin|Hin]; try reflexivity.
    + exfalso. apply Hin. apply partitions_indices; assumption.
    + exfalso. apply Hi. apply (partitions_indices ap n i Hap). exact Hin.
  - intros x. apply with_current_size_idempotent.
  - auto.
  - apply set_current_size_updates.
  - intros i Hi. apply (partitions_indices ap n i Hap) in Hi.
    destruct (lookup_lt_is_Some_2 configuration i) as [x Hx]; [lia|].
    exists x. auto.
Qed.

(** The loop over the particles of one contact body works on the
    configuration of that body alone. *)
Lemma for_each_contact_row (k : nat) (nums : list nat)
    (configurations : list ParticleConfiguration) (row : ParticleConfiguration) :
  configurations !! k = Some row ->
  for_each (fun num => set_contact_current_size k num 0) nums configurations
  = match for_each (fun num => set_current_size num 0) nums row with
    | Some row' => Some (<[k := row']> configurations)
    | None => None
    end.
Proof.
  revert configurations row. induction nums as [|num rest IH];
    intros configurations row Hk; simpl.
  - now rewrite list_insert_id.
  - unfold set_contact_current_size at 1. rewrite Hk.
    destruct (set_current_size num 0 row) as [row1|]; [|reflexivity].
    rewrite (IH (<[k := row1]> configurations) row1).
    + destruct (for_each _ rest row1); [|reflexivity].
      now rewrite list_insert_insert_eq.
    + apply list_lookup_insert_eq. eapply lookup_lt_Some, Hk.
Qed.

Lemma contact_body_updates (ap : partitioner) (n : nat) :
  partitions ap ->
  forall (k : nat) (configurations : list ParticleConfiguration) (row : ParticleConfiguration),
    configurations !! k = Some row ->
    n <= length row ->
    parallel_for {| r_begin := 0; r_end := n |}
      (fun r => for_size_t (r_begin r) (r_end r)
                  (fun num => set_contact_current_size k num 0))
      ap configurations
    = Some (<[k := zero_first n row]> configurations).
Proof.
  intros Hap k configurations row Hk Hn.
  rewrite parallel_for_indices, (for_each_contact_row k _ configurations row Hk).
  rewrite <- parallel_for_indices, for_each_set_current_size by assumption.
  reflexivity.
Qed.

Section WithPartitioner.

Variable ap : partitioner.
Hypothesis ap_partitions : partitions ap.
Variable base_particles : BaseParticles.

Let total : nat := total_real_particles_ base_particles.

Lemma inner_reset (this : BaseInnerRelation) :
  total <= length (inner_configuration_ this) ->
  BaseInnerRelation_resetNeighborhoodCurrentSize ap base_particles this
  = Some {| inner_configuration_ := zero_first total (inner_configuration_ this) |}.
Proof.
  intros Hn. unfold BaseInnerRelation_resetNeighborhoodCurrentSize.
  fold total. now rewrite for_each_set_current_size.
Qed.

Lemma contact_reset (this : BaseContactRelation) :
  length (contact_configuration_ this) = length (contact_bodies_ this) ->
  Forall (fun row => total <= length row) (contact_configuration_ this) ->
  BaseContactRelation_resetNeighborhoodCurrentSize ap base_particles this
  = Some {| contact_bodies_ := contact_bodies_ this;
            contact_configuration_ := zero_first total <$> contact_configuration_ this |}.
Proof.
  intros Hlen Hrows. unfold BaseContactRelation_resetNeighborhoodCurrentSize.
  fold total. unfold for_size_t at 1.
  rewrite (for_each_updates (zero_first total) (fun row => total <= length row)).
  - do 2 f_equal. apply list_eq. intros k.
    rewrite list_lookup_imap, list_lookup_fmap.
    destruct (contact_configuration_ this !! k) as [row|] eqn:Hk; [|reflexivity].
    simpl. destruct (decide (k ∈ _)) as [_|Hin]; [reflexivity|].
    exfalso. apply Hin, elem_of_seq. apply lookup_lt_Some in Hk. lia.
  - apply zero_first_idempotent.
  - intros row Hrow. now rewrite length_zero_first.
  - intros k l row. apply contact_body_updates, ap_partitions.
  - intros k Hk. apply elem_of_seq in Hk.
    destruct (lookup_lt_is_Some_2 (contact_configuration_ this) k) as [row Hrow]; [lia|].
    exists row. split; [exact Hrow|].
    eapply (proj1 (Forall_lookup _ _) Hrows), Hrow.
Qed.

(** C2 (as amended).  [resetNeighborhoodCurrentSize] sets the current size
    of the Neighborhoods of the real particles, those of index below
    [total_real_particles_], to zero, in the one container of an inner
    relation and in the container of every contact body of a contact
    relation; the entries from that index on, and everything but the
    current size, are left as they were; a second call changes nothing.
    When the containers hold no entry beyond the real particles, every
    current size is zero afterwards. *)
Theorem resetNeighborhoodCurrentSize_real_particles :
  (forall this : BaseInnerRelation,
     total <= length (inner_configuration_ this) ->
     exists this',
       BaseInnerRelation_resetNeighborhoodCurrentSize ap base_particles this = Some this' /\
       inner_configuration_ this' = zero_first total (inner_configuration_ this) /\
       BaseInnerRelation_resetNeighborhoodCurrentSize ap base_particles this' = Some this' /\
       (total = length (inner_configuration_ this) ->
        Forall (fun nb => current_size_ nb = 0) (inner_configuration_ this'))) /\
  (forall this : BaseContactRelation,
     length (contact_configuration_ this) = length (contact_bodies_ this) ->
     Forall (fun row => total <= length row) (contact_configuration_ this) ->
     exists this',
       BaseContactRelation_resetNeighborhoodCurrentSize ap base_particles this = Some this' /\
       contact_bodies_ this' = contact_bodies_ this /\
       contact_configuration_ this' = zero_first total <$> contact_configuration_ this /\
       BaseContactRelation_resetNeighborhoodCurrentSize ap base_particles this' = Some this' /\
       (Forall (fun row => total = length row) (contact_configuration_ this) ->
        Forall (Forall (fun nb => current_size_ nb = 0)) (contact_configuration_ this'))) /\
  (forall (configuration : ParticleConfiguration) (i : nat) (nb : Neighborhood),
     configuration !! i = Some nb ->
     length (zero_first total configuration) = length configuration /\
     (i < total -> zero_first total configuration !! i = Some (with_current_size 0 nb)) /\
     (total <= i -> zero_first total configuration !! i = Some nb)).
Proof.
  assert (Hall : forall row : ParticleConfiguration,
            total = length row ->
            Forall (fun nb => current_size_ nb = 0) (zero_first total row)).
  { intros row Hrow. apply Forall_lookup. intros i nb Hi.
    pose proof (lookup_lt_Some _ _ _ Hi) as Hlt.
    rewrite length_zero_first in Hlt. rewrite lookup_zero_first in Hi.
    destruct (decide (i < total)) as [_|Hge]; [|lia].
    destruct (row !! i); simpl in Hi; [|discriminate].
    injection Hi as <-. reflexivity. }
  split; [|split].
  - intros this Hn. eexists. split; [apply inner_reset; exact Hn|]. simpl.
    split; [reflexivity|]. split.
    + rewrite inner_reset; simpl.
      * now rewrite zero_first_idempotent.
      * now rewrite length_zero_first.
    + apply Hall.
  - intros this Hlen Hrows. eexists.
    split; [apply contact_reset; assumption|]. simpl.
    split; [reflexivity|]. split; [reflexivity|]. split.
    + rewrite contact_reset; simpl.
      * do 2 f_equal. rewrite <- list_fmap_compose. apply list_fmap_ext.
        intros i row _. simpl. apply zero_first_idempotent.
      * now rewrite length_fmap.
      * apply Forall_fmap. eapply Forall_impl; [exact Hrows|].
        intros row Hrow. simpl. now rewrite length_zero_first.
    + intros Heq. apply Forall_fmap. eapply Forall_impl; [exact Heq|].
      intros row Hrow. simpl. apply Hall, Hrow.
  - intros configuration i nb Hi. split; [apply length_zero_first|].
    rewrite lookup_zero_first, Hi. split; intros H.
    + destruct (decide (i < total)); [reflexivity | lia].
    + destruct (decide (i < total)); [lia | reflexivity].
Qed.

End WithPartitioner.

(** A relation as constructed has one entry per particle up to the bound
    of its body. *)
Lemma BaseInnerRelation_new_length (real_body : SPHBody) :
  length (inner_configuration_ (BaseInnerRelation_new real_body))
  = real_particles_bound_ (getBaseParticles real_body).
Proof. unfold BaseInnerRelation_new. simpl. apply length_resize. Qed.

Lemma BaseContactRelation_new_lengths (sph_body : SPHBody)
    (contact_sph_bodies : list RealBodyPtr) :
  let this := BaseContactRelation_new sph_body contact_sph_bodies in
  length (contact_configuration_ this) = length (contact_bodies_ this) /\
  Forall (fun row => length row = real_particles_bound_ (getBaseParticles sph_body))
         (contact_configuration_ this).
Proof.
  unfold BaseContactRelation_new. simpl. split.
  - now rewrite List.length_map, length_resize.
  - apply List.Forall_map. apply Forall_forall. intros row _. apply length_resize.
Qed.

(** [updateConfigurationMemories] resizes the container to the particle
    bound: the entries that stay keep their content, the new ones are
    fresh Neighborhoods with a current size of zero. *)
Theorem updateConfigurationMemories_resizes
    (base_particles : BaseParticles) (this : BaseInnerRelation) :
  let this' := BaseInnerRelation_updateConfigurationMemories base_particles this in
  let bound := real_particles_bound_ base_particles in
  length (inner_configuration_ this') = bound /\
  (forall i, i < length (inner_configuration_ this) /\ i < bound ->
     inner_configuration_ this' !! i = inner_configuration_ this !! i) /\
  (forall i, length (inner_configuration_ this) <= i /\ i < bound ->
     inner_configuration_ this' !! i = Some Neighborhood_new) /\
  current_size_ Neighborhood_new = 0.
Proof.
  intros this' bound. subst this' bound. simpl. split; [apply length_resize|].
  split; [|split; [|reflexivity]].
  - intros i [Hi Hb]. now apply lookup_resize.
  - intros i [Hi Hb]. now apply lookup_resize_new.
Qed.

Lemma one_block_partitions : partitions one_block.
Proof.
  intros range Hrange. unfold one_block. split.
  - repeat constructor. exact Hrange.
  - intros i. split.
    + intros (r & Hr & Hi). apply list_elem_of_singleton in Hr. now subst r.
    + intros Hi. exists range. split; [apply list_elem_of_singleton; reflexivity | exact Hi].
Qed.

(** C2 (witness): an inner relation with two real particles and one
    spare entry, reset block by block. *)
Lemma resetNeighborhoodCurrentSize_real_particles_witness :
  let base_particles := {| total_real_particles_ := 2; real_particles_bound_ := 3 |} in
  let this :=
    {| inner_configuration_ :=
         [neighborhood_of_size 4; neighborhood_of_size 1; neighborhood_of_size 7] |} in
  exists this',
    BaseInnerRelation_resetNeighborhoodCurrentSize one_block base_particles this = Some this' /\
    inner_configuration_ this' = zero_first 2 (inner_configuration_ this) /\
    BaseInnerRelation_resetNeighborhoodCurrentSize one_block base_particles this' = Some this'.
Proof.
  intros base_particles this.
  destruct (resetNeighborhoodCurrentSize_real_particles one_block one_block_partitions
              base_particles) as [Hinner _].
  destruct (Hinner this) as (this' & Hreset & Hconf & Hagain & _).
  - simpl. lia.
  - exists this'. auto.
Defined.

(** C2 (counterexample): with one real particle and a bound of two, the
    second Neighborhood keeps its current size of five. *)
Lemma resetNeighborhoodCurrentSize_keeps_spare_entries :
  let base_particles := {| total_real_particles_ := 1; real_particles_bound_ := 2 |} in
  let this :=
    {| inner_configuration_ := [neighborhood_of_size 3; neighborhood_of_size 5] |} in
  let this' :=
    {| inner_configuration_ :=
         [with_current_size 0 (neighborhood_of_size 3); neighborhood_of_size 5] |} in
  BaseInnerRelation_resetNeighborhoodCurrentSize one_block base_particles this = Some this' /\
  List.map current_size_ (inner_configuration_ this') = [0; 5] /\
  ~ Forall (fun nb => current_size_ nb = 0) (inner_configuration_ this').
Proof.
  intros base_particles this this'.
  split; [reflexivity|]. split; [reflexivity|].
  intros Hall. apply Forall_cons in Hall. destruct Hall as [_ Hall].
  apply Forall_cons in Hall. destruct Hall as [H5 _]. simpl in H5. discriminate.
Qed.

(** *** Converting body parts *)

Section WithDynamicCast.

Variable DynamicCast : BodyPart -> SPHBody -> option RealBodyPtr.

Lemma BodyPartsToRealBodies_from_mapM (body_parts : list BodyPart)
    (real_bodies : list RealBodyPtr) :
  BodyPartsToRealBodies_from DynamicCast body_parts real_bodies
  = match mapM (fun part => DynamicCast part (getSPHBody part)) body_parts with
    | Some casted => Some (real_bodies ++ casted)
    | None => None
    end.
Proof.
  revert real_bodies. induction body_parts as [|part rest IH]; intros real_bodies; simpl.
  - now rewrite app_nil_r.
  - destruct (DynamicCast part (getSPHBody part)) as [p|]; simpl; [|reflexivity].
    rewrite IH.
    destruct (mapM (fun part => DynamicCast part (getSPHBody part)) rest); simpl;
      [|reflexivity].
    now rewrite <- app_assoc.
Qed.

Lemma BodyPartsToRealBodies_mapM (body_parts : list BodyPart) :
  BodyPartsToRealBodies DynamicCast body_parts
  = mapM (fun part => DynamicCast part (getSPHBody part)) body_parts.
Proof.
  unfold BodyPartsToRealBodies. rewrite BodyPartsToRealBodies_from_mapM.
  destruct (mapM _ body_parts); reflexivity.
Qed.

Lemma real_bodies_among_all_real (body_parts : list BodyPart) :
  (forall part, part ∈ body_parts -> is_RealBody (getSPHBody part) = true) ->
  real_bodies_among body_parts = (fun part => pointer_to (getSPHBody part)) <$> body_parts.
Proof.
  unfold real_bodies_among. induction body_parts as [|part rest IH]; intros Hreal; simpl.
  - reflexivity.
  - rewrite (Hreal part) by (apply elem_of_cons; auto). simpl. f_equal.
    apply IH. intros part' Hin. apply Hreal, elem_of_cons. auto.
Qed.

(** C4 (as amended).  [BodyPartsToRealBodies] filters nothing: it casts
    the body of every part, in order, and keeps one pointer per part.
    When it returns, the result is as long as the input and its entries
    are what the casts returned; it returns exactly when every cast does.
    When every part belongs to a real body, and the cast of a real body
    returns that body, the result is the list of the real bodies among the
    parts. *)
Theorem BodyPartsToRealBodies_casts_every_part (body_parts : list BodyPart) :
  (forall real_bodies,
     BodyPartsToRealBodies DynamicCast body_parts = Some real_bodies ->
     length real_bodies = length body_parts /\
     Forall2 (fun part p => DynamicCast part (getSPHBody part) = Some p)
             body_parts real_bodies) /\
  (BodyPartsToRealBodies DynamicCast body_parts = None <->
   exists part, part ∈ body_parts /\ DynamicCast part (getSPHBody part) = None) /\
  ((forall part, part ∈ body_parts -> is_RealBody (getSPHBody part) = true) ->
   (forall part, part ∈ body_parts ->
      DynamicCast part (getSPHBody part) = Some (pointer_to (getSPHBody part))) ->
   BodyPartsToRealBodies DynamicCast body_parts = Some (real_bodies_among body_parts)).
Proof.
  rewrite BodyPartsToRealBodies_mapM. split; [|split].
  - intros real_bodies Hsome. split.
    + symmetry. eapply length_mapM, Hsome.
    + apply mapM_Some_1, Hsome.
  - rewrite mapM_None, Exists_exists. split; intros (part & H1 & H2); exists part; auto.
  - intros Hreal Hcast. rewrite real_bodies_among_all_real by exact Hreal.
    apply mapM_Some_2. apply Forall2_fmap_r, Forall_Forall2_diag, Forall_forall.
    exact Hcast.
Qed.

End WithDynamicCast.

(** C4 (witness): two parts of a real body, converted with a cast that
    ends the program on other bodies. *)
Lemma BodyPartsToRealBodies_casts_every_part_witness :
  BodyPartsToRealBodies checked_cast [water_part; water_part]
  = Some (real_bodies_among [water_part; water_part]).
Proof.
  apply (BodyPartsToRealBodies_casts_every_part checked_cast [water_part; water_part]).
  - intros part Hin. apply elem_of_cons in Hin. destruct Hin as [->|Hin]; [reflexivity|].
    apply list_elem_of_singleton in Hin. now subst part.
  - intros part Hin. apply elem_of_cons in Hin. destruct Hin as [->|Hin]; [reflexivity|].
    apply list_elem_of_singleton in Hin. now subst part.
Defined.

(** C4 (counterexample): for a part of a real body followed by a part of a
    body that is not real, no behaviour of the cast makes the result the
    list of the real bodies alone. *)
Lemma BodyPartsToRealBodies_does_not_filter :
  real_bodies_among [water_part; observer_part] = [pointer_to (getSPHBody water_part)] /\
  ~ (exists cast : BodyPart -> SPHBody -> option RealBodyPtr,
       BodyPartsToRealBodies cast [water_part; observer_part]
       = Some (real_bodies_among [water_part; observer_part])).
Proof.
  split; [reflexivity|].
  intros [cast H]. unfold BodyPartsToRealBodies in H.
  change (real_bodies_among [water_part; observer_part])
    with [pointer_to (getSPHBody water_part)] in H.
  simpl in H.
  destruct (cast water_part _); [|discriminate].
  destruct (cast observer_part _); discriminate.
Qed.

(** *** Bounds of the reset, and resets after a resize *)

Lemma for_each_set_current_size_in_bounds (nums : list nat)
    (configuration configuration' : ParticleConfiguration) :
  for_each (fun num => set_current_size num 0) nums configuration = Some configuration' ->
  (forall i, i ∈ nums -> i < length configuration) /\
  length configuration' = length configuration.
Proof.
  revert configuration. induction nums as [|num rest IH]; intros configuration; simpl.
  - intros [= <-]. split; [|reflexivity]. intros i Hi. now apply elem_of_nil in Hi.
  - unfold set_current_size at 1.
    destruct (configuration !! num) as [nb|] eqn:Hnum; [|discriminate].
    intros Hrest. apply IH in Hrest. destruct Hrest as [Hin Hlen].
    rewrite length_insert in Hin, Hlen. split; [|exact Hlen].
    intros i Hi. apply elem_of_cons in Hi. destruct Hi as [->|Hi]; [|auto].
    eapply lookup_lt_Some, Hnum.
Qed.

(** The reset of an inner relation returns exactly when the container
    holds an entry for every real particle: with fewer entries it reads
    past the end of the container. *)
Theorem resetNeighborhoodCurrentSize_in_bounds (ap : partitioner)
    (base_particles : BaseParticles) (this : BaseInnerRelation) :
  partitions ap ->
  (is_Some (BaseInnerRelation_resetNeighborhoodCurrentSize ap base_particles this)
   <-> total_real_particles_ base_particles <= length (inner_configuration_ this)) /\
  (length (inner_configuration_ this) < total_real_particles_ base_particles ->
   BaseInnerRelation_resetNeighborhoodCurrentSize ap base_particles this = None).
Proof.
  intros Hap.
  assert (Hiff : is_Some (BaseInnerRelation_resetNeighborhoodCurrentSize ap base_particles this)
     <-> total_real_particles_ base_particles <= length (inner_configuration_ this)).
  { split.
    - intros [this' Hsome]. unfold BaseInnerRelation_resetNeighborhoodCurrentSize in Hsome.
      rewrite parallel_for_indices in Hsome.
      destruct (for_each _ _ (inner_configuration_ this)) as [configuration|] eqn:Hloop;
        [|discriminate].
      apply for_each_set_current_size_in_bounds in Hloop. destruct Hloop as [Hin _].
      destruct (total_real_particles_ base_particles) as [|n] eqn:Htotal; [lia|].
      specialize (Hin n). rewrite (partitions_indices ap (S n) n Hap) in Hin.
      specialize (Hin ltac:(lia)). lia.
    - intros Hle. rewrite (inner_reset ap Hap base_particles this Hle). eauto. }
  split; [exact Hiff|].
  intros Hlt.
  destruct (BaseInnerRelation_resetNeighborhoodCurrentSize ap base_particles this) eqn:Hreset;
    [|reflexivity].
  assert (Hsome : is_Some (Some b)) by eauto. apply Hiff in Hsome. lia.
Qed.

Lemma zero_first_of_zeroed (n : nat) (configuration : ParticleConfiguration) :
  Forall (fun nb => current_size_ nb = 0) configuration ->
  zero_first n configuration = configuration.
Proof.
  intros Hzero. apply list_eq. intros i. rewrite lookup_zero_first.
  destruct (decide (i < n)); [|reflexivity].
  destruct (configuration !! i) as [nb|] eqn:Hi; [|reflexivity]. simpl. f_equal.
  pose proof (proj1 (Forall_lookup _ _) Hzero i nb Hi) as Hnb.
  destruct nb as [size allocated records]. simpl in Hnb. now subst size.
Qed.

Lemma fmap_zero_first_of_zeroed (n : nat) (configurations : list ParticleConfiguration) :
  Forall (Forall (fun nb => current_size_ nb = 0)) configurations ->
  zero_first n <$> configurations = configurations.
Proof.
  intros Hzero. induction Hzero as [|row rows Hrow _ IH]; [reflexivity|].
  rewrite fmap_cons, IH. f_equal. now apply zero_first_of_zeroed.
Qed.

Lemma BaseContactRelation_updateConfigurationMemories_lengths
    (base_particles : BaseParticles) (this : BaseContactRelation) :
  let this' := BaseContactRelation_updateConfigurationMemories base_particles this in
  contact_bodies_ this' = contact_bodies_ this /\
  length (contact_configuration_ this') = length (contact_bodies_ this) /\
  Forall (fun row => length row = real_particles_bound_ base_particles)
         (contact_configuration_ this').
Proof.
  simpl. split; [reflexivity|]. split.
  - now rewrite List.length_map, length_resize.
  - apply List.Forall_map. apply Forall_forall. intros row _. apply length_resize.
Qed.

(** After [updateConfigurationMemories] on particles with no more real
    particles than their bound, the reset of either relation returns; on a
    relation as constructed, whose current sizes are all zero, it changes
    nothing. *)
Theorem updateConfigurationMemories_then_reset (ap : partitioner)
    (base_particles : BaseParticles) :
  partitions ap ->
  total_real_particles_ base_particles <= real_particles_bound_ base_particles ->
  (forall this : BaseInnerRelation,
     is_Some (BaseInnerRelation_resetNeighborhoodCurrentSize ap base_particles
                (BaseInnerRelation_updateConfigurationMemories base_particles this))) /\
  (forall this : BaseContactRelation,
     is_Some (BaseContactRelation_resetNeighborhoodCurrentSize ap base_particles
                (BaseContactRelation_updateConfigurationMemories base_particles this))) /\
  (forall real_body : SPHBody,
     getBaseParticles real_body = base_particles ->
     BaseInnerRelation_resetNeighborhoodCurrentSize ap base_particles
       (BaseInnerRelation_new real_body)
     = Some (BaseInnerRelation_new real_body)) /\
  (forall (sph_body : SPHBody) (contact_sph_bodies : list RealBodyPtr),
     getBaseParticles sph_body = base_particles ->
     BaseContactRelation_resetNeighborhoodCurrentSize ap base_particles
       (BaseContactRelation_new sph_body contact_sph_bodies)
     = Some (BaseContactRelation_new sph_body contact_sph_bodies)).
Proof.
  intros Hap Hbound.
  assert (Hfresh : forall n, Forall (fun nb => current_size_ nb = 0)
                               (resize n Neighborhood_new [])).
  { intros n. rewrite resize_nil. apply Forall_replicate. reflexivity. }
  split; [|split; [|split]].
  - intros this. rewrite inner_reset; [eauto | exact Hap|].
    simpl. now rewrite length_resize.
  - intros this.
    destruct (BaseContactRelation_updateConfigurationMemories_lengths base_particles this)
      as (_ & Hlen & Hrows).
    rewrite contact_reset; [eauto | exact Hap | |].
    + simpl in *. exact Hlen.
    + eapply Forall_impl; [exact Hrows|]. intros row Hrow. simpl in Hrow. lia.
  - intros real_body <-. rewrite inner_reset; [|exact Hap|].
    + unfold BaseInnerRelation_new. simpl. now rewrite zero_first_of_zeroed.
    + rewrite BaseInnerRelation_new_length. exact Hbound.
  - intros sph_body contact_sph_bodies <-.
    destruct (BaseContactRelation_new_lengths sph_body contact_sph_bodies) as [Hlen Hrows].
    rewrite contact_reset; [|exact Hap|exact Hlen|].
    + rewrite fmap_zero_first_of_zeroed; [reflexivity|].
      unfold BaseContactRelation_new. simpl. rewrite resize_nil.
      apply List.Forall_map, Forall_forall. intros row Hrow.
      apply elem_of_replicate in Hrow. destruct Hrow as [-> _]. apply Hfresh.
    + eapply Forall_impl; [exact Hrows|]. intros row Hrow. simpl in Hrow. lia.
Qed.

(** *** Converting lists of body parts *)

Section ConvertingParts.

Variable DynamicCast : BodyPart -> SPHBody -> option RealBodyPtr.

(** Converting a concatenation converts its two halves, in order; an empty
    list converts to the empty list, whatever the cast; a contact relation
    constructed from a converted list has one configuration per body part,
    each as long as the particle bound of its own body. *)
Theorem BodyPartsToRealBodies_app (l1 l2 : list BodyPart) :
  BodyPartsToRealBodies DynamicCast [] = Some [] /\
  BodyPartsToRealBodies DynamicCast (l1 ++ l2)
  = match BodyPartsToRealBodies DynamicCast l1, BodyPartsToRealBodies DynamicCast l2 with
    | Some r1, Some r2 => Some (r1 ++ r2)
    | _, _ => None
    end /\
  (forall (sph_body : SPHBody) (real_bodies : list RealBodyPtr),
     BodyPartsToRealBodies DynamicCast l1 = Some real_bodies ->
     let relation := BaseContactRelation_new sph_body real_bodies in
     length (contact_configuration_ relation) = length l1 /\
     Forall (fun row => length row = real_particles_bound_ (getBaseParticles sph_body))
            (contact_configuration_ relation)).
Proof.
  split; [reflexivity|]. split.
  - rewrite !BodyPartsToRealBodies_mapM.
    induction l1 as [|part rest IH]; simpl.
    + destruct (mapM _ l2); reflexivity.
    + destruct (DynamicCast part (getSPHBody part)); simpl; [|reflexivity].
      rewrite IH.
      destruct (mapM _ rest); simpl; [|reflexivity].
      destruct (mapM _ l2); reflexivity.
  - intros sph_body real_bodies Hsome relation.
    destruct (BaseContactRelation_new_lengths sph_body real_bodies) as [Hlen Hrows].
    fold relation in Hlen, Hrows. split; [|exact Hrows].
    rewrite Hlen. unfold relation. simpl.
    rewrite BodyPartsToRealBodies_mapM in Hsome. symmetry. eapply length_mapM, Hsome.
Qed.

End ConvertingParts.

(** *** Instances of the further properties *)

Lemma resetNeighborhoodCurrentSize_in_bounds_witness :
  BaseInnerRelation_resetNeighborhoodCurrentSize one_block
    {| total_real_particles_ := 2; real_particles_bound_ := 2 |}
    {| inner_configuration_ := [neighborhood_of_size 4] |}
  = None.
Proof.
  apply (resetNeighborhoodCurrentSize_in_bounds one_block
           {| total_real_particles_ := 2; real_particles_bound_ := 2 |}
           {| inner_configuration_ := [neighborhood_of_size 4] |} one_block_partitions).
  simpl. lia.
Defined.

Lemma updateConfigurationMemories_then_reset_witness :
  BaseInnerRelation_resetNeighborhoodCurrentSize one_block
    (getBaseParticles (body_of 1 true 4 6)) (BaseInnerRelation_new (body_of 1 true 4 6))
  = Some (BaseInnerRelation_new (body_of 1 true 4 6)).
Proof.
  destruct (updateConfigurationMemories_then_reset one_block
              (getBaseParticles (body_of 1 true 4 6)) one_block_partitions)
    as (_ & _ & Hnew & _).
  - simpl. lia.
  - apply Hnew. reflexivity.
Defined.

Lemma BodyPartsToRealBodies_app_witness :
  let relation := BaseContactRelation_new (body_of 2 true 3 5)
                    [pointer_to (getSPHBody water_part)] in
  length (contact_configuration_ relation) = length [water_part].
Proof.
  intros relation.
  destruct (BodyPartsToRealBodies_app checked_cast [water_part] []) as (_ & _ & Hrel).
  destruct (Hrel (body_of 2 true 3 5) [pointer_to (getSPHBody water_part)]) as [Hlen _].
  - reflexivity.
  - exact Hlen.
Defined.

End BodyRelationFacts.
